(** * A timer run-loop: [Looper] and its [LoopContext]

    Shallow embedding of [Examples/Looper/Looper.cpp] and a verification of
    its scheduling, cancellation and shutdown behaviour.

    Conventions of the embedding.
    - The C++ declarations of [Ticket] and [Timepoint] live in the
      headers.  A [Ticket] is a mathematical integer and [++mTicketCounter]
      is transcribed without wrap-around.  A [Timepoint] is an integer of
      fixed width, whose greatest value [Timepoint::max()] is a parameter,
      [Timepoint_max]: the additions [triggerTime += interval] and
      [now + interval] store the sum as far as it is representable and
      wrap around beyond.  Durations are counted in ticks of the clock:
      [interval] is the value of [action->interval] converted to the
      period of [Timepoint], which is what these additions take.
    - The two vectors of [ManagedAction*] are lists of records.  Every
      pointer occurs in exactly one vector, so an in-place write through
      [action->] is an update of the list element at the index the loop
      is visiting.
    - A [RepeatingAction] is a callable that may call back into the looper
      that runs it.  It is embedded as a function from the state of the
      rest of the program ([World]) to a finite tree of looper calls
      ([Prog]) ending in a return value or an exception.
    - The mutex, the condition variable and the thread identity assertions
      do not appear: every operation below is atomic with respect to the
      two vectors, which is what the lock discipline of the source
      provides.  What other threads do, which is to schedule, and what the
      clock reads are given to [run] as a script. *)

From Stdlib Require Import ZArith Lia.
From stdpp Require Import base tactics numbers option sorting list.

Local Open Scope Z_scope.

Abbreviation Ticket := Z (only parsing).
Abbreviation Timepoint := Z (only parsing).
Abbreviation Duration := Z (only parsing).

(** [x] is invoked before [y] in the sequence of invocations [fired]. *)
Definition fires_before (x y : Ticket) (fired : list Ticket) : Prop :=
  ∃ l1 l2 l3, fired = l1 ++ x :: l2 ++ y :: l3.

(** ** The process-wide main looper *)

(** [static Looper* sMainLooper;] is zero-initialised, that is, null.  A
    looper object is identified by its address. *)
Record Globals := { sMainLooper : option N }.

Definition globals_at_startup : Globals := {| sMainLooper := None |}.

(** Result of evaluating an lvalue [*p]. *)
Inductive Deref (A : Type) : Type :=
| Object (a : A)
| UndefinedBehaviour.
Arguments Object {A} a.
Arguments UndefinedBehaviour {A}.

Definition mainLooper (g : Globals) : Deref N :=
  match sMainLooper g with
  | Some l => Object l
  | None => UndefinedBehaviour
  end.

Definition setMainLooper (l : N) (g : Globals) : Globals :=
  {| sMainLooper := Some l |}.

Section Loop.

(** State of everything the action bodies can see besides the looper. *)
Variable World : Type.

(** [Timepoint::max()]. *)
Variable Timepoint_max : Timepoint.

(** [Timepoint::min()], the representation being a two's complement
    integer. *)
Definition Timepoint_min : Timepoint := - Timepoint_max - 1.

(** The values of a [Timepoint]. *)
Definition representable (z : Z) : Prop := Timepoint_min ≤ z ≤ Timepoint_max.

(** What a [Timepoint] holds after an addition whose exact result is [z]:
    [z] itself when it is representable; beyond, where the addition of
    the source overflows, the two's complement result, which is what the
    compiled code stores. *)
Definition stored (z : Z) : Timepoint :=
  (z - Timepoint_min) mod (Timepoint_max - Timepoint_min + 1) + Timepoint_min.

(** ** Action bodies *)

(** What a [RepeatingAction] does when called: a sequence of calls on the
    looper, each continuation receiving the call's result, ended by
    [return repeat] or by an exception.  The final [World] is the state the
    body leaves behind. *)
Inductive Prog : Type :=
| Ret (repeat : bool) (w : World)
| Throw (w : World)
| CallSchedule (body : World -> Prog) (trigger : Timepoint)
    (ival : Duration) (cu : bool) (k : Ticket -> Prog)
| CallCancel (t : Ticket) (k : bool -> Prog)
| CallCancelAll (k : Prog)
| CallQuit (k : Prog).

(** ** Data model *)

Record ManagedAction := {
  ticket : Ticket;
  action : World -> Prog;
  interval : Duration;
  catchUp : bool;
  triggerTime : Timepoint;
  isCancelled : bool
}.

Definition set_isCancelled (b : bool) (a : ManagedAction) : ManagedAction :=
  {| ticket := ticket a; action := action a; interval := interval a;
     catchUp := catchUp a; triggerTime := triggerTime a; isCancelled := b |}.

Definition set_triggerTime (t : Timepoint) (a : ManagedAction) : ManagedAction :=
  {| ticket := ticket a; action := action a; interval := interval a;
     catchUp := catchUp a; triggerTime := t; isCancelled := isCancelled a |}.

Record LoopContext := {
  mTicketCounter : Ticket;
  mQueuedActions : list ManagedAction;
  mPendingActions : list ManagedAction
}.

(** [LoopContext::LoopContext()] *)
Definition LoopContext_new : LoopContext :=
  {| mTicketCounter := 100; mQueuedActions := []; mPendingActions := [] |}.

(** ** [LoopContext] operations *)

(** First loop of [queuePending]: the survivors of the queued vector are
    pushed at the back of the pending vector. *)
Definition requeue (queued pending : list ManagedAction) : list ManagedAction :=
  fold_left (fun p a => if isCancelled a then p else p ++ [a]) queued pending.

(** Second loop of [queuePending], [wake] being the value of the local
    [wakeTime] when the loop is entered. *)
Definition wakeFrom (wake : Timepoint) (queued : list ManagedAction) : Timepoint :=
  fold_left (fun wake a => if triggerTime a <? wake then triggerTime a else wake)
    queued wake.

Definition wakeTime (queued : list ManagedAction) : Timepoint :=
  wakeFrom Timepoint_max queued.

Definition queuePending (c : LoopContext) : Timepoint * LoopContext :=
  let pending := requeue (mQueuedActions c) (mPendingActions c) in
  (* mQueuedActions.clear(); mQueuedActions.swap(mPendingActions); *)
  (wakeTime pending,
   {| mTicketCounter := mTicketCounter c;
      mQueuedActions := pending;
      mPendingActions := [] |}).

Definition hasPending (c : LoopContext) : bool :=
  match mPendingActions c with [] => false | _ :: _ => true end.

Fixpoint tryCancelQueued_in (t : Ticket) (l : list ManagedAction)
  : bool * list ManagedAction :=
  match l with
  | [] => (false, [])
  | a :: l' =>
      if ticket a =? t then
        if isCancelled a then (false, a :: l')
        else (true, set_isCancelled true a :: l')
      else
        let '(r, l'') := tryCancelQueued_in t l' in (r, a :: l'')
  end.

Definition tryCancelQueued (t : Ticket) (c : LoopContext) : bool * LoopContext :=
  let '(r, q) := tryCancelQueued_in t (mQueuedActions c) in
  (r, {| mTicketCounter := mTicketCounter c;
         mQueuedActions := q;
         mPendingActions := mPendingActions c |}).

(** [tryCancelPending] as compiled with assertions disabled: the first
    entry carrying the ticket is deleted and erased. *)
Fixpoint tryCancelPending_in (t : Ticket) (l : list ManagedAction)
  : bool * list ManagedAction :=
  match l with
  | [] => (false, [])
  | a :: l' =>
      if ticket a =? t then (true, l')
      else
        let '(r, l'') := tryCancelPending_in t l' in (r, a :: l'')
  end.

(** The condition of [assert (!action->isCancelled)] at the entry
    [tryCancelPending] matches, [true] when no entry matches. *)
Fixpoint tryCancelPending_assert (t : Ticket) (l : list ManagedAction) : bool :=
  match l with
  | [] => true
  | a :: l' =>
      if ticket a =? t then negb (isCancelled a)
      else tryCancelPending_assert t l'
  end.

Definition tryCancelPending (t : Ticket) (c : LoopContext) : bool * LoopContext :=
  let '(r, p) := tryCancelPending_in t (mPendingActions c) in
  (r, {| mTicketCounter := mTicketCounter c;
         mQueuedActions := mQueuedActions c;
         mPendingActions := p |}).

Definition cancelAllQueued (c : LoopContext) : LoopContext :=
  {| mTicketCounter := mTicketCounter c;
     mQueuedActions := set_isCancelled true <$> mQueuedActions c;
     mPendingActions := mPendingActions c |}.

Definition cancelAllPending (c : LoopContext) : LoopContext :=
  {| mTicketCounter := mTicketCounter c;
     mQueuedActions := mQueuedActions c;
     mPendingActions := [] |}.

Definition scheduleImpl (body : World -> Prog) (trigger : Timepoint)
    (ival : Duration) (cu : bool) (c : LoopContext) : Ticket * LoopContext :=
  let counter := mTicketCounter c + 1 in
  let sa := {| ticket := counter; action := body; interval := ival;
               catchUp := cu; triggerTime := trigger; isCancelled := false |} in
  (ticket sa,
   {| mTicketCounter := counter;
      mQueuedActions := mQueuedActions c;
      mPendingActions := mPendingActions c ++ [sa] |}).

(** ** [Looper] operations *)

Record Looper := {
  mContext : LoopContext;
  mQuit : bool
}.

(** [Looper::Looper(name)] *)
Definition Looper_new : Looper :=
  {| mContext := LoopContext_new; mQuit := false |}.

Definition with_context (c : LoopContext) (l : Looper) : Looper :=
  {| mContext := c; mQuit := mQuit l |}.

Definition cancel (t : Ticket) (l : Looper) : bool * Looper :=
  let '(didCancel, c1) := tryCancelQueued t (mContext l) in
  if didCancel then (true, with_context c1 l)
  else
    let '(didCancel', c2) := tryCancelPending t c1 in
    (didCancel', with_context c2 l).

Definition cancelAll (l : Looper) : Looper :=
  with_context (cancelAllPending (cancelAllQueued (mContext l))) l.

Definition quit (l : Looper) : Looper :=
  {| mContext := mContext (cancelAll l); mQuit := true |}.

(** Modelled from the spec: [scheduleAt], the public scheduling entry of
    the header, which is not part of the translation unit.  It issues a
    ticket and appends the entry to the pending sequence under the lock,
    which is [scheduleImpl] on the context. *)
Definition scheduleAt (body : World -> Prog) (trigger : Timepoint)
    (ival : Duration) (cu : bool) (l : Looper) : Ticket * Looper :=
  let '(t, c) := scheduleImpl body trigger ival cu (mContext l) in
  (t, with_context c l).

(** ** Execution

    The looper is run inside a [Machine]: the looper itself, the state of
    the rest of the program, and two ghost fields that observe the run
    without influencing it. *)

Record Machine := {
  looper : Looper;
  world : World;
  (** ghost: the tickets returned by the schedule calls so far, oldest first *)
  issued : list Ticket;
  (** ghost: the condition of every assertion executed so far was true *)
  asserts_ok : bool
}.

Definition Machine_new (w : World) : Machine :=
  {| looper := Looper_new; world := w; issued := []; asserts_ok := true |}.

Definition with_looper (l : Looper) (m : Machine) : Machine :=
  {| looper := l; world := world m; issued := issued m;
     asserts_ok := asserts_ok m |}.

Definition with_world (w : World) (m : Machine) : Machine :=
  {| looper := looper m; world := w; issued := issued m;
     asserts_ok := asserts_ok m |}.

(** [assert (cond)] *)
Definition check (cond : bool) (m : Machine) : Machine :=
  {| looper := looper m; world := world m; issued := issued m;
     asserts_ok := asserts_ok m && cond |}.

Definition ctx (m : Machine) : LoopContext := mContext (looper m).
Definition queued (m : Machine) : list ManagedAction := mQueuedActions (ctx m).
Definition pending (m : Machine) : list ManagedAction := mPendingActions (ctx m).
Definition counter (m : Machine) : Ticket := mTicketCounter (ctx m).
Definition quitting (m : Machine) : bool := mQuit (looper m).

Definition doSchedule (body : World -> Prog) (trigger : Timepoint)
    (ival : Duration) (cu : bool) (m : Machine) : Ticket * Machine :=
  let '(t, l) := scheduleAt body trigger ival cu (looper m) in
  (t, {| looper := l; world := world m; issued := issued m ++ [t];
         asserts_ok := asserts_ok m |}).

Definition doCancel (t : Ticket) (m : Machine) : bool * Machine :=
  let '(r, l) := cancel t (looper m) in
  let reached_pending := negb (fst (tryCancelQueued t (ctx m))) in
  (r, with_looper l
        (check (implb reached_pending (tryCancelPending_assert t (pending m))) m)).

Definition doCancelAll (m : Machine) : Machine :=
  with_looper (cancelAll (looper m)) m.

Definition doQuit (m : Machine) : Machine :=
  with_looper (quit (looper m)) m.

Definition doQueuePending (m : Machine) : Timepoint * Machine :=
  let '(wake, c) := queuePending (ctx m) in
  (wake, with_looper (with_context c (looper m)) m).

Inductive BodyResult : Type :=
| Returned (repeat : bool)
| Thrown.

(** One call of [action->action()]. *)
Fixpoint runBody (p : Prog) (m : Machine) : BodyResult * Machine :=
  match p with
  | Ret repeat w => (Returned repeat, with_world w m)
  | Throw w => (Thrown, with_world w m)
  | CallSchedule body trigger ival cu k =>
      let '(t, m') := doSchedule body trigger ival cu m in runBody (k t) m'
  | CallCancel t k =>
      let '(r, m') := doCancel t m in runBody (k r) m'
  | CallCancelAll k => runBody k (doCancelAll m)
  | CallQuit k => runBody k (doQuit m)
  end.

(** The writes of [runQueued] after the body has returned. *)
Definition reschedule (now : Timepoint) (repeat : bool) (a : ManagedAction)
  : ManagedAction :=
  if repeat then
    if catchUp a then set_triggerTime (stored (triggerTime a + interval a)) a
    else set_triggerTime (stored (now + interval a)) a
  else set_isCancelled true a.

(** A write through the pointer stored at index [i] of the queued vector. *)
Definition updateQueued (i : nat) (f : ManagedAction -> ManagedAction)
    (m : Machine) : Machine :=
  with_looper
    (with_context
       {| mTicketCounter := counter m;
          mQueuedActions := alter f i (queued m);
          mPendingActions := pending m |}
       (looper m)) m.

(** How a pass ends: the loop ran to its end or left through [break], or
    an exception is unwinding. *)
Inductive PassEnd : Type :=
| Completed
| Unwinding.

(** What follows the call of the body at index [i]: the exception is
    rethrown, or the entry is rescheduled, the quit flag is consulted and
    the iteration goes on with [rest]. *)
Definition afterBody (now : Timepoint) (i : nat)
    (rest : Machine -> PassEnd * Machine * list Ticket)
    (res : BodyResult * Machine) : PassEnd * Machine * list Ticket :=
  match res with
  | (Thrown, m1) => (Unwinding, m1, [])
  | (Returned repeat, m1) =>
      let m2 := updateQueued i (reschedule now repeat) m1 in
      if quitting m2 then (Completed, m2, []) else rest m2
  end.

(** The loop of [runQueued] over the [n] entries from index [i] on.  The
    third component lists the tickets of the bodies invoked, in order. *)
Fixpoint runQueuedFrom (n : nat) (i : nat) (now : Timepoint) (m : Machine)
  : PassEnd * Machine * list Ticket :=
  match n with
  | O => (Completed, m, [])
  | S n' =>
      match queued m !! i with
      | None => (Completed, m, [])
      | Some a =>
          if isCancelled a then runQueuedFrom n' (S i) now m
          else if triggerTime a <=? now then
            let '(e, m', fired) :=
              afterBody now i (runQueuedFrom n' (S i) now)
                (runBody (action a (world m)) m) in
            (e, m', ticket a :: fired)
          else runQueuedFrom n' (S i) now m
      end
  end.

(** [LoopContext::runQueued(&mQuit)], [now] being the clock reading. *)
Definition runQueued (now : Timepoint) (m : Machine)
  : PassEnd * Machine * list Ticket :=
  runQueuedFrom (length (queued m)) 0 now m.

(** The rest of a pass interrupted inside the body at index [i], of which
    [k] remains to be run, with [n] entries after it. *)
Definition resumeQueued (k : Prog) (n i : nat) (now : Timepoint) (m : Machine)
  : PassEnd * Machine * list Ticket :=
  afterBody now i (runQueuedFrom n (S i) now) (runBody k m).

(** ** [Looper::run]

    The clock and the other threads are given as a script. *)

Record Request := {
  rqBody : World -> Prog;
  rqTrigger : Timepoint;
  rqInterval : Duration;
  rqCatchUp : bool
}.

Definition request (r : Request) (m : Machine) : Ticket * Machine :=
  doSchedule (rqBody r) (rqTrigger r) (rqInterval r) (rqCatchUp r) m.

(** Other threads schedule [rs]. *)
Definition arrive (rs : list Request) (m : Machine) : Machine :=
  fold_left (fun m r => snd (request r m)) rs m.

Record Cycle := {
  (** scheduled by other threads before the lock is taken *)
  cyBefore : list Request;
  (** one entry per round of the wait loop: the clock reading after
      [queuePending], and what is scheduled while the loop then waits *)
  cyWait : list (Timepoint * list Request);
  (** the clock reading of [runQueued] *)
  cyNow : Timepoint
}.

(** The inner [do ... while (true)] of [run], under the lock.  [false]
    when the script ends while the loop is waiting. *)
Fixpoint waitLoop (ws : list (Timepoint * list Request)) (m : Machine)
  : bool * Machine :=
  match ws with
  | [] => (false, m)
  | (now, rs) :: ws' =>
      let '(sleepUntil, m1) := doQueuePending m in
      if sleepUntil <=? now then (true, m1)
      else waitLoop ws' (arrive rs m1)
  end.

Inductive Outcome : Type :=
| Stopped      (* run() has returned *)
| Escaped      (* an exception has left run() *)
| Running.     (* the script is exhausted, run() has not returned *)

(** The end of the outer loop body: [while (!mQuit)], and the final
    [queuePending] once the loop is left. *)
Definition endOfPass (rest : Machine -> Outcome * Machine * list Ticket)
    (res : PassEnd * Machine * list Ticket) : Outcome * Machine * list Ticket :=
  match res with
  | (Unwinding, m, fired) => (Escaped, m, fired)
  | (Completed, m, fired) =>
      if quitting m then (Stopped, snd (doQueuePending m), fired)
      else let '(o, m', fired') := rest m in (o, m', fired ++ fired')
  end.

Fixpoint runCycles (cs : list Cycle) (m : Machine)
  : Outcome * Machine * list Ticket :=
  match cs with
  | [] => (Running, m, [])
  | c :: cs' =>
      let '(due, m1) := waitLoop (cyWait c) (arrive (cyBefore c) m) in
      if due then
        let m2 := check (negb (quitting m1)) m1 in
        endOfPass (runCycles cs') (runQueued (cyNow c) m2)
      else (Running, m1, [])
  end.

Definition run (cs : list Cycle) (m : Machine)
  : Outcome * Machine * list Ticket :=
  runCycles cs
    (with_looper {| mContext := ctx m; mQuit := false |} m).

(** [run] taken up inside the body at index [i] of a pass. *)
Definition resumeRun (k : Prog) (n i : nat) (now : Timepoint)
    (cs : list Cycle) (m : Machine) : Outcome * Machine * list Ticket :=
  endOfPass (runCycles cs) (resumeQueued k n i now m).

(** ** Histories

    Everything that can happen to a looper, one event after the other:
    calls of the public interface, the two steps of a cycle on their own,
    whole runs, and the remainder of an interrupted pass or run. *)

Inductive Op : Type :=
| OpSchedule (r : Request)
| OpCancel (t : Ticket)
| OpCancelAll
| OpQuit
| OpQueuePending
| OpRunQueued (now : Timepoint)
| OpResume (k : Prog) (n i : nat) (now : Timepoint)
| OpRun (cs : list Cycle)
| OpResumeRun (k : Prog) (n i : nat) (now : Timepoint) (cs : list Cycle).

Definition step (o : Op) (m : Machine) : Machine * list Ticket :=
  match o with
  | OpSchedule r => (snd (request r m), [])
  | OpCancel t => (snd (doCancel t m), [])
  | OpCancelAll => (doCancelAll m, [])
  | OpQuit => (doQuit m, [])
  | OpQueuePending => (snd (doQueuePending m), [])
  | OpRunQueued now => let '(_, m', fired) := runQueued now m in (m', fired)
  | OpResume k n i now =>
      let '(_, m', fired) := resumeQueued k n i now m in (m', fired)
  | OpRun cs => let '(_, m', fired) := run cs m in (m', fired)
  | OpResumeRun k n i now cs =>
      let '(_, m', fired) := resumeRun k n i now cs m in (m', fired)
  end.

(** The machine after the history [ops], and the tickets of the bodies
    invoked during it, in order. *)
Fixpoint exec (ops : list Op) (m : Machine) : Machine * list Ticket :=
  match ops with
  | [] => (m, [])
  | o :: ops' =>
      let '(m1, fired) := step o m in
      let '(m2, fired') := exec ops' m1 in
      (m2, fired ++ fired')
  end.

(** ** Vocabulary of the statements *)

(** An entry that is not cancelled. *)
Definition live (a : ManagedAction) : Prop := isCancelled a = false.

#[local] Instance live_dec (a : ManagedAction) : Decision (live a).
Proof. unfold live. apply _. Defined.

(** [a'] is a later state of the entry [a]: what identifies the entry is
    unchanged and a cancelled entry stays cancelled. *)
Definition ages (a a' : ManagedAction) : Prop :=
  ticket a' = ticket a ∧ action a' = action a ∧ interval a' = interval a ∧
  catchUp a' = catchUp a ∧ (isCancelled a = true → isCancelled a' = true).

(** The same, the trigger time being unchanged as well. *)
Definition marks (a a' : ManagedAction) : Prop :=
  ages a a' ∧ triggerTime a' = triggerTime a.

(** A step of the registry that rewrites queued entries in place, each
    according to [R], and possibly erases pending ones.  Every operation
    is such a step, apart from scheduling and reconciliation. *)
Definition evolves (R : ManagedAction → ManagedAction → Prop)
    (c c' : LoopContext) : Prop :=
  mTicketCounter c' = mTicketCounter c ∧
  Forall2 R (mQueuedActions c) (mQueuedActions c') ∧
  mPendingActions c' `sublist_of` mPendingActions c.

(** All the entries the registry owns. *)
Definition entries (c : LoopContext) : list ManagedAction :=
  mQueuedActions c ++ mPendingActions c.

(** Tickets identify entries, every ticket in use has been issued, and
    nothing pending is cancelled. *)
Record wf (c : LoopContext) : Prop := {
  wf_unique : NoDup (ticket <$> entries c);
  wf_issued : ∀ t, t ∈ ticket <$> entries c → t ≤ mTicketCounter c;
  wf_pending_live : Forall live (mPendingActions c)
}.

(** No body can be invoked on behalf of ticket [t] any more: queued
    entries that carry it are cancelled, no pending entry carries it, and
    it will not be issued again. *)
Definition dead (t : Ticket) (c : LoopContext) : Prop :=
  (∀ a, a ∈ mQueuedActions c → ticket a = t → isCancelled a = true) ∧
  (t ∉ ticket <$> mPendingActions c) ∧
  t ≤ mTicketCounter c.

(** What it takes for a property of the registry to hold forever. *)
Record invariant (Q : LoopContext → Prop) : Prop := {
  inv_evolves : ∀ c c', evolves ages c c' → Q c → Q c';
  inv_schedule : ∀ body trigger ival cu c,
    Q c → Q (snd (scheduleImpl body trigger ival cu c));
  inv_queuePending : ∀ c, Q c → Q (snd (queuePending c))
}.

(** Preserved by whatever a body can do. *)
Record api_stable (P : Machine → Prop) : Prop := {
  st_schedule : ∀ body trigger ival cu m,
    P m → P (doSchedule body trigger ival cu m).2;
  st_cancel : ∀ t m, P m → P (doCancel t m).2;
  st_cancelAll : ∀ m, P m → P (doCancelAll m);
  st_quit : ∀ m, P m → P (doQuit m);
  st_world : ∀ w m, P m → P (with_world w m)
}.

(** Preserved by whatever the loop does besides calling bodies. *)
Record stable (P : Machine → Prop) : Prop := {
  st_api : api_stable P;
  st_update : ∀ i now repeat m,
    P m → P (updateQueued i (reschedule now repeat) m);
  st_queuePending : ∀ m, P m → P (doQueuePending m).2;
  st_check : ∀ m, P m → P (check true m);
  st_start : ∀ m,
    P m → P (with_looper {| mContext := ctx m; mQuit := false |} m)
}.

(** Entry [i] of the queued sequence is [a], up to its cancelled flag. *)
Definition holds (i : nat) (a : ManagedAction) (m : Machine) : Prop :=
  ∃ a', queued m !! i = Some a' ∧ marks a a'.

(** The tickets returned so far increase, lie above 100 and do not
    exceed the counter. *)
Definition issued_ok (m : Machine) : Prop :=
  StronglySorted Z.lt (issued m) ∧
  Forall (λ t, 100 < t ≤ counter m) (issued m) ∧
  100 ≤ counter m.

(** A body that returns [false] whenever it is called. *)
Definition never_repeats (body : World → Prog) : Prop :=
  ∀ w m, (runBody (body w) m).1 = Returned false.

(** Ticket [t] has been issued and whatever carries it never repeats. *)
Definition once (t : Ticket) (c : LoopContext) : Prop :=
  t ≤ mTicketCounter c ∧
  ∀ a, a ∈ entries c → ticket a = t → never_repeats (action a).

(** How often the body of [t] was invoked. *)
Definition times (t : Ticket) (fired : list Ticket) : nat :=
  length (filter (λ x, x = t) fired).

(** The history invariant of a once-action: its body has not been invoked
    yet, or it has been invoked once and the ticket is dead. *)
Definition once_history (t : Ticket) (fired : list Ticket) (m : Machine) : Prop :=
  (wf (ctx m) ∧ once t (ctx m)) ∧
  (times t fired = 0%nat ∨ (times t fired = 1%nat ∧ dead t (ctx m))).

(** Once [quit] has been called, and until the next reconciliation,
    every queued entry is cancelled. *)
Definition quit_cancelled (m : Machine) : Prop :=
  quitting m = true → Forall (λ a, isCancelled a = true) (queued m).

(** From index [i] on, the queued entries are those of the sequence [q0],
    up to their cancelled flags. *)
Definition rest_of (q0 : list ManagedAction) (i : nat) (m : Machine) : Prop :=
  ∀ j a', (i ≤ j)%nat → queued m !! j = Some a' →
    ∃ a, q0 !! j = Some a ∧ marks a a'.

(** A body that calls nothing on the looper and asks to be repeated. *)
Definition plain_repeater (body : World → Prog) : Prop :=
  ∀ w, ∃ w', body w = Ret true w'.

(** A cycle of [run] that wakes and runs its pass at the clock reading
    [now], no other thread scheduling meanwhile. *)
Definition tick (now : Timepoint) : Cycle :=
  {| cyBefore := []; cyWait := [(now, [])]; cyNow := now |}.

(** The looper runs and holds the single entry [a], queued. *)
Definition alone (a : ManagedAction) (m : Machine) : Prop :=
  queued m = [a] ∧ pending m = [] ∧ quitting m = false.

(** A program that leaves the action [t] alone: it returns, calls neither
    [cancelAll] nor [quit], cancels other tickets only, and schedules
    bodies that do the same. *)
Inductive bystander (t : Ticket) : Prog → Prop :=
| bystander_Ret repeat w : bystander t (Ret repeat w)
| bystander_Schedule body trigger ival cu k :
    (∀ w, bystander t (body w)) → (∀ t', bystander t (k t')) →
    bystander t (CallSchedule body trigger ival cu k)
| bystander_Cancel t' k :
    t' ≠ t → (∀ r, bystander t (k r)) → bystander t (CallCancel t' k).

Definition bystander_request (t : Ticket) (r : Request) : Prop :=
  ∀ w, bystander t (rqBody r w).

Definition bystander_cycle (t : Ticket) (c : Cycle) : Prop :=
  Forall (bystander_request t) (cyBefore c) ∧
  Forall (λ w, Forall (bystander_request t) w.2) (cyWait c).

(** An event that leaves the action [t] alone: anything but [cancel(t)],
    [cancelAll()] and [quit()], by programs that leave it alone. *)
Definition bystander_op (t : Ticket) (o : Op) : Prop :=
  match o with
  | OpSchedule r => bystander_request t r
  | OpCancel t' => t' ≠ t
  | OpQueuePending => True
  | OpRunQueued _ => True
  | OpRun cs => Forall (bystander_cycle t) cs
  | OpCancelAll => False
  | OpQuit => False
  | OpResume k _ _ _ => False
  | OpResumeRun k _ _ _ _ => False
  end.

(** The entry [a] waits for its turn: the looper is not quitting, the
    registry holds [a], and the bodies of the other entries leave it
    alone. *)
Definition waiting (a : ManagedAction) (m : Machine) : Prop :=
  wf (ctx m) ∧ quitting m = false ∧ a ∈ entries (ctx m) ∧
  ∀ b, b ∈ entries (ctx m) → ticket b ≠ ticket a →
       ∀ w, bystander (ticket a) (action b w).

(** * Verification *)

Arguments doSchedule : simpl never.
Arguments doCancel : simpl never.
Arguments doCancelAll : simpl never.
Arguments doQuit : simpl never.
Arguments doQueuePending : simpl never.
Arguments updateQueued : simpl never.
Arguments check : simpl never.
Arguments with_world : simpl never.

(** ** Fixed-width time *)

Lemma stored_representable z : representable z → stored z = z.
Proof.
  unfold representable, stored. intros Hz.
  rewrite Z.mod_small by lia. lia.
Qed.

(** ** Entries and sequences *)

Lemma ages_refl a : ages a a.
Proof. by repeat split. Qed.

Lemma marks_refl a : marks a a.
Proof. split; [apply ages_refl | done]. Qed.

Lemma marks_ages a a' : marks a a' → ages a a'.
Proof. by intros [? _]. Qed.

Lemma marks_cancel a : marks a (set_isCancelled true a).
Proof. by repeat split. Qed.

Lemma ages_reschedule now repeat a : ages a (reschedule now repeat a).
Proof.
  unfold reschedule.
  destruct repeat; [destruct (catchUp a) |]; by repeat split.
Qed.

Lemma Forall2_marks_refl l : Forall2 marks l l.
Proof. induction l; constructor; auto using marks_refl. Qed.

Lemma Forall2_ages_tickets l l' :
  Forall2 ages l l' → ticket <$> l' = ticket <$> l.
Proof.
  induction 1 as [|a a' l l' [Ht _] _ IH]; [done |].
  rewrite !fmap_cons. by rewrite Ht, IH.
Qed.

Lemma requeue_spec q p : requeue q p = p ++ filter live q.
Proof.
  unfold requeue. revert p.
  induction q as [|a q IH]; intros p; simpl.
  - by rewrite app_nil_r.
  - rewrite IH. destruct (decide (live a)) as [Ha|Ha].
    + rewrite filter_cons_True by done. rewrite Ha. by rewrite <- app_assoc.
    + rewrite filter_cons_False by done.
      unfold live in Ha. by destruct (isCancelled a).
Qed.

Lemma tryCancelQueued_in_marks t l :
  Forall2 marks l (snd (tryCancelQueued_in t l)).
Proof.
  induction l as [|a l IH]; simpl; [constructor |].
  destruct (ticket a =? t).
  - destruct (isCancelled a); simpl; constructor;
      auto using marks_refl, marks_cancel, Forall2_marks_refl.
  - destruct (tryCancelQueued_in t l) as [r l'']; simpl in *.
    constructor; auto using marks_refl.
Qed.

(** A successful [tryCancelQueued] found a live entry with the ticket. *)
Lemma tryCancelQueued_in_true t l :
  fst (tryCancelQueued_in t l) = true →
  ∃ a, a ∈ l ∧ ticket a = t ∧ live a.
Proof.
  induction l as [|a l IH]; simpl; [done |].
  destruct (Z.eqb_spec (ticket a) t) as [Heq|Hne].
  - destruct (isCancelled a) eqn:E; simpl; [done |].
    intros _. exists a. split; [left | done].
  - destruct (tryCancelQueued_in t l) as [r l'']; simpl in *.
    intros Hr. destruct (IH Hr) as (b & ? & ? & ?).
    exists b. split; [by right | done].
Qed.

(** An unsuccessful one leaves the sequence as it was, and the first entry
    with the ticket, if there is one, was cancelled already. *)
Lemma tryCancelQueued_in_false t l :
  fst (tryCancelQueued_in t l) = false →
  snd (tryCancelQueued_in t l) = l ∧
  (NoDup (ticket <$> l) → ∀ a, a ∈ l → ticket a = t → isCancelled a = true).
Proof.
  induction l as [|a l IH]; simpl.
  - intros _. split; [done |]. intros _ a Ha. by apply elem_of_nil in Ha.
  - destruct (Z.eqb_spec (ticket a) t) as [Heq|Hne].
    + destruct (isCancelled a) eqn:E; simpl; [| done].
      intros _. split; [done |].
      intros [Hnin _]%NoDup_cons b Hb Htb.
      apply elem_of_cons in Hb as [-> | Hb]; [done |].
      exfalso. apply Hnin. rewrite Heq, <- Htb. by apply list_elem_of_fmap_2.
    + destruct (tryCancelQueued_in t l) as [r l'']; simpl in *.
      intros Hr. destruct (IH Hr) as [-> Hall]. split; [done |].
      intros [_ Hnd]%NoDup_cons b Hb Htb.
      apply elem_of_cons in Hb as [-> | Hb]; [done |]. by apply Hall.
Qed.

(** After a successful one no live entry carries the ticket, tickets
    being unique. *)
Lemma tryCancelQueued_in_done t l :
  fst (tryCancelQueued_in t l) = true →
  NoDup (ticket <$> l) →
  ∀ a, a ∈ snd (tryCancelQueued_in t l) → ticket a = t → isCancelled a = true.
Proof.
  induction l as [|a l IH]; simpl; [done |].
  destruct (Z.eqb_spec (ticket a) t) as [Heq|Hne].
  - destruct (isCancelled a) eqn:E; simpl; [done |].
    intros _. intros [Hnin _]%NoDup_cons b Hb Htb.
    apply elem_of_cons in Hb as [-> | Hb]; [done |].
    exfalso. apply Hnin. rewrite Heq, <- Htb. by apply list_elem_of_fmap_2.
  - destruct (tryCancelQueued_in t l) as [r l'']; simpl in *.
    intros Hr. intros [_ Hnd]%NoDup_cons b Hb Htb.
    apply elem_of_cons in Hb as [-> | Hb]; [done |]. by apply IH.
Qed.

Lemma tryCancelPending_in_sublist t l :
  snd (tryCancelPending_in t l) `sublist_of` l.
Proof.
  induction l as [|a l IH]; simpl; [constructor |].
  destruct (ticket a =? t); simpl.
  - by apply sublist_cons.
  - destruct (tryCancelPending_in t l) as [r l'']; simpl in *.
    by apply sublist_skip.
Qed.

Lemma tryCancelPending_in_found t l :
  fst (tryCancelPending_in t l) = true ↔ t ∈ ticket <$> l.
Proof.
  induction l as [|a l IH]; simpl.
  - split; [done |]. intros H. by apply elem_of_nil in H.
  - rewrite ?fmap_cons, elem_of_cons.
    destruct (Z.eqb_spec (ticket a) t) as [Heq|Hne]; simpl.
    + split; [by left | done].
    + destruct (tryCancelPending_in t l) as [r l'']; simpl in *.
      rewrite IH. split; [by right |]. by intros [? | ?].
Qed.

(** The erased entry was the only one with the ticket, tickets being
    unique. *)
Lemma tryCancelPending_in_gone t l :
  NoDup (ticket <$> l) → t ∉ ticket <$> snd (tryCancelPending_in t l).
Proof.
  induction l as [|a l IH]; simpl.
  - intros _ H. by apply elem_of_nil in H.
  - intros [Hnin Hnd]%NoDup_cons.
    destruct (Z.eqb_spec (ticket a) t) as [Heq|Hne]; simpl.
    + by rewrite <- Heq.
    + specialize (IH Hnd).
      destruct (tryCancelPending_in t l) as [r l'']; simpl in *.
      rewrite ?fmap_cons, elem_of_cons. by intros [? | ?].
Qed.

Lemma tryCancelPending_assert_live t l :
  Forall live l → tryCancelPending_assert t l = true.
Proof.
  induction 1 as [|a l Ha _ IH]; simpl; [done |].
  destruct (ticket a =? t); [| done]. by rewrite Ha.
Qed.

Lemma tryCancelQueued_in_others t l :
  filter (λ a, ticket a ≠ t) (tryCancelQueued_in t l).2
    = filter (λ a, ticket a ≠ t) l.
Proof.
  induction l as [|a l IH]; simpl; [done |].
  destruct (Z.eqb_spec (ticket a) t) as [Heq | Hne].
  - destruct (isCancelled a); [done |]. cbn [snd].
    by rewrite !filter_cons_False by (cbn; intros H; by apply H).
  - destruct (tryCancelQueued_in t l) as [r l'']; cbn [snd] in *.
    by rewrite !filter_cons_True, IH by done.
Qed.

Lemma tryCancelPending_in_others t l :
  filter (λ a, ticket a ≠ t) (tryCancelPending_in t l).2
    = filter (λ a, ticket a ≠ t) l.
Proof.
  induction l as [|a l IH]; simpl; [done |].
  destruct (Z.eqb_spec (ticket a) t) as [Heq | Hne].
  - cbn [snd]. by rewrite filter_cons_False by (intros H; by apply H).
  - destruct (tryCancelPending_in t l) as [r l'']; cbn [snd] in *.
    by rewrite !filter_cons_True, IH by done.
Qed.

(** ** Steps of the registry *)

Lemma evolves_weaken c c' : evolves marks c c' → evolves ages c c'.
Proof.
  intros (? & Hq & ?). unfold evolves. split_and!; [done | | done].
  eapply Forall2_impl; [exact Hq |]. apply marks_ages.
Qed.

Lemma evolves_refl c : evolves marks c c.
Proof. unfold evolves. split_and!; [done | apply Forall2_marks_refl | done]. Qed.

Lemma Forall2_origin (R : ManagedAction → ManagedAction → Prop) l l' a' :
  Forall2 R l l' → a' ∈ l' → ∃ a, a ∈ l ∧ R a a'.
Proof.
  induction 1 as [|a b l l' HR _ IH]; intros Hin.
  - by apply elem_of_nil in Hin.
  - apply elem_of_cons in Hin as [-> | Hin].
    + exists a. split; [left | done].
    + destruct (IH Hin) as (x & ? & ?). exists x. split; [by right | done].
Qed.

Lemma evolves_tickets c c' :
  evolves ages c c' →
  ticket <$> (mQueuedActions c' ++ mPendingActions c')
    `sublist_of` ticket <$> (mQueuedActions c ++ mPendingActions c).
Proof.
  intros (_ & Hq & Hp). rewrite !fmap_app.
  rewrite (Forall2_ages_tickets _ _ Hq).
  apply sublist_app; [done |]. by apply fmap_sublist.
Qed.

Lemma tryCancelQueued_evolves t c : evolves marks c (snd (tryCancelQueued t c)).
Proof.
  unfold tryCancelQueued.
  pose proof (tryCancelQueued_in_marks t (mQueuedActions c)) as H.
  destruct (tryCancelQueued_in t (mQueuedActions c)) as [r q]; simpl in *.
  by split_and!.
Qed.

Lemma tryCancelPending_evolves t c : evolves marks c (snd (tryCancelPending t c)).
Proof.
  unfold tryCancelPending.
  pose proof (tryCancelPending_in_sublist t (mPendingActions c)) as H.
  destruct (tryCancelPending_in t (mPendingActions c)) as [r q]; simpl in *.
  split_and!; [done | apply Forall2_marks_refl | done].
Qed.

Lemma marks_trans a b c : marks a b → marks b c → marks a c.
Proof.
  intros [(? & ? & ? & ? & ?) ?] [(? & ? & ? & ? & ?) ?].
  unfold marks, ages. split_and!; try congruence. auto.
Qed.

Lemma evolves_trans c1 c2 c3 :
  evolves marks c1 c2 → evolves marks c2 c3 → evolves marks c1 c3.
Proof.
  intros (Hc & Hq & Hp) (Hc' & Hq' & Hp'). unfold evolves. split_and!.
  - congruence.
  - clear -Hq Hq'. revert Hq'. generalize (mQueuedActions c3).
    induction Hq as [|a b l l' Hab _ IH]; intros l3 H3; inv H3; constructor.
    + eapply marks_trans; eauto.
    + auto.
  - by etrans.
Qed.

Lemma cancelAll_evolves c :
  evolves marks c (cancelAllPending (cancelAllQueued c)).
Proof.
  split_and!; simpl; [done | | apply sublist_nil_l].
  induction (mQueuedActions c); constructor; auto using marks_cancel.
Qed.

Lemma cancel_context t l :
  mContext (snd (cancel t l)) =
    (if fst (tryCancelQueued t (mContext l))
     then snd (tryCancelQueued t (mContext l))
     else snd (tryCancelPending t (snd (tryCancelQueued t (mContext l))))) ∧
  mQuit (snd (cancel t l)) = mQuit l ∧
  fst (cancel t l) =
    (if fst (tryCancelQueued t (mContext l)) then true
     else fst (tryCancelPending t (snd (tryCancelQueued t (mContext l))))).
Proof.
  unfold cancel. destruct (tryCancelQueued t (mContext l)) as [[] c1]; simpl.
  - done.
  - by destruct (tryCancelPending t c1).
Qed.

Lemma cancel_evolves t l :
  evolves marks (mContext l) (mContext (snd (cancel t l))).
Proof.
  destruct (cancel_context t l) as (-> & _ & _).
  destruct (fst (tryCancelQueued t (mContext l))).
  - apply tryCancelQueued_evolves.
  - eapply evolves_trans;
      [apply tryCancelQueued_evolves | apply tryCancelPending_evolves].
Qed.

Lemma doCancel_evolves t m : evolves marks (ctx m) (ctx (snd (doCancel t m))).
Proof.
  unfold doCancel. pose proof (cancel_evolves t (looper m)) as H.
  by destruct (cancel t (looper m)).
Qed.

Lemma updateQueued_evolves i now repeat m :
  evolves ages (ctx m) (ctx (updateQueued i (reschedule now repeat) m)).
Proof.
  split_and!; simpl; [done | | done].
  apply Forall2_alter_r.
  - eapply Forall2_impl; [apply Forall2_marks_refl | apply marks_ages].
  - intros a b Ha Hb _.
    assert (Some a = Some b) as [= ->] by (rewrite <- Ha; exact Hb).
    apply ages_reschedule.
Qed.

(** ** Invariants of the registry *)

Lemma wf_new : wf LoopContext_new.
Proof.
  split; simpl.
  - constructor.
  - intros t H. by apply elem_of_nil in H.
  - constructor.
Qed.

Lemma wf_invariant : invariant wf.
Proof.
  split.
  - intros c c' Hev [Hu Hi Hl].
    pose proof (evolves_tickets _ _ Hev) as Hsub.
    destruct Hev as (Hc & _ & Hp). split.
    + eapply sublist_NoDup; [exact Hu | exact Hsub].
    + intros t Ht. rewrite Hc. apply Hi. eapply elem_of_sublist; eauto.
    + rewrite Forall_forall in *. intros a Ha. apply Hl.
      eapply elem_of_sublist; eauto.
  - intros body trigger ival cu c [Hu Hi Hl].
    split; unfold entries in *; simpl.
    + rewrite app_assoc, fmap_app. apply NoDup_app. split; [done |].
      split; [| apply NoDup_singleton].
      intros t Ht Hin. apply list_elem_of_singleton in Hin. simpl in Hin.
      apply Hi in Ht. lia.
    + intros t. rewrite app_assoc, fmap_app, elem_of_app.
      intros [Ht | Hin]; [apply Hi in Ht; lia |].
      apply list_elem_of_singleton in Hin. simpl in Hin. lia.
    + apply Forall_app. split; [done |]. by apply Forall_singleton.
  - intros c [Hu Hi Hl]. split; unfold entries in *; simpl.
    + rewrite requeue_spec, app_nil_r.
      rewrite fmap_app in *. apply NoDup_app in Hu as (Hq & Hqp & Hp).
      apply NoDup_app. split; [done |]. split.
      * intros t Ht Hin. apply (Hqp t); [| done].
        eapply elem_of_sublist; [exact Hin |].
        apply fmap_sublist, sublist_filter.
      * eapply sublist_NoDup; [exact Hq |].
        apply fmap_sublist, sublist_filter.
    + intros t. rewrite requeue_spec, app_nil_r. intros Ht. apply Hi.
      rewrite fmap_app, elem_of_app in *. destruct Ht as [Ht | Ht]; [by right |].
      left. eapply elem_of_sublist; [exact Ht |].
      apply fmap_sublist, sublist_filter.
    + constructor.
Qed.

Lemma dead_invariant t : invariant (dead t).
Proof.
  split.
  - intros c c' (Hc & Hq & Hp) (Hdq & Hdp & Hdc). split_and!.
    + intros a' Ha' Ht.
      destruct (Forall2_origin _ _ _ _ Hq Ha') as (a & Ha & Hage).
      destruct Hage as (Hta & _ & _ & _ & Hmono).
      apply Hmono, Hdq; [done | congruence].
    + intros Hin. apply Hdp. eapply elem_of_sublist; [exact Hin |].
      by apply fmap_sublist.
    + by rewrite Hc.
  - intros body trigger ival cu c (Hdq & Hdp & Hdc). split_and!; simpl.
    + done.
    + rewrite fmap_app, elem_of_app. intros [? | Hin]; [done |].
      apply list_elem_of_singleton in Hin. simpl in Hin. lia.
    + lia.
  - intros c (Hdq & Hdp & Hdc). split_and!; simpl.
    + rewrite requeue_spec. intros a Ha Ht.
      apply elem_of_app in Ha as [Ha | Ha].
      * exfalso. apply Hdp. rewrite <- Ht. by apply list_elem_of_fmap_2.
      * apply list_elem_of_filter in Ha as [_ Ha]. by apply Hdq.
    + intros H. by apply elem_of_nil in H.
    + done.
Qed.

(** ** Properties preserved by a run *)

Lemma invariant_stable Q : invariant Q → stable (λ m, Q (ctx m)).
Proof.
  intros [Hev Hsch Hqp]. split; [split | ..]; intros; try done.
  - by apply Hsch.
  - eapply Hev; [| eassumption]. apply evolves_weaken, doCancel_evolves.
  - eapply Hev; [| eassumption]. apply evolves_weaken, cancelAll_evolves.
  - eapply Hev; [| eassumption]. apply evolves_weaken, cancelAll_evolves.
  - eapply Hev; [| eassumption]. apply updateQueued_evolves.
  - by apply Hqp.
Qed.

Lemma stable_and P Q : stable P → stable Q → stable (λ m, P m ∧ Q m).
Proof.
  intros [[] ? ? ? ?] [[] ? ? ? ?].
  split; [split | ..]; intros;
    match goal with H : _ ∧ _ |- _ => destruct H end; split; auto.
Qed.

Lemma runBody_stable P : api_stable P → ∀ p m, P m → P (runBody p m).2.
Proof.
  intros [Hs Hc Hca Hq Hw]. induction p
    as [r w | w | body IHb trigger ival cu k IH | t k IH | k IH | k IH];
    intros m Hm; cbn [runBody]; auto.
  - by apply Hw.
  - by apply Hw.
  - specialize (Hs body trigger ival cu m Hm).
    destruct (doSchedule body trigger ival cu m) as [t' m']. apply IH, Hs.
  - specialize (Hc t m Hm). destruct (doCancel t m) as [r m']. apply IH, Hc.
Qed.

(** The quit flag is only cleared by [run] itself. *)
Lemma quitting_doSchedule body trigger ival cu m :
  quitting (doSchedule body trigger ival cu m).2 = quitting m.
Proof. done. Qed.

Lemma quitting_doQueuePending m : quitting (doQueuePending m).2 = quitting m.
Proof. done. Qed.

Lemma quitting_arrive rs m : quitting (arrive rs m) = quitting m.
Proof.
  unfold arrive. revert m. induction rs as [|r rs IH]; intros m; cbn; [done |].
  by rewrite IH.
Qed.

Lemma quitting_waitLoop ws m : quitting (waitLoop ws m).2 = quitting m.
Proof.
  revert m. induction ws as [|[now rs] ws IH]; intros m; cbn; [done |].
  destruct (doQueuePending m) as [sleepUntil m1] eqn:E.
  assert (quitting m1 = quitting m) as Hq
    by (by rewrite <- (quitting_doQueuePending m), E).
  destruct (sleepUntil <=? now); cbn; [done |].
  by rewrite IH, quitting_arrive.
Qed.

Lemma quitting_sticky : api_stable (λ m, quitting m = true).
Proof.
  split; intros; try done.
  unfold quitting, doCancel in *.
  destruct (cancel_context t (looper m)) as (_ & Hq & _).
  destruct (cancel t (looper m)); cbn in *. congruence.
Qed.

(** *** The history invariant

    [Inv fired m]: a property of the tickets of the bodies invoked so far
    and of the machine, which every step of the loop preserves, and which
    is restored once an invoked body has returned and its entry has been
    rescheduled. *)
Section History.

Variable Inv : list Ticket → Machine → Prop.

Hypothesis Inv_stable : ∀ fired, stable (Inv fired).

Hypothesis Inv_invoke : ∀ fired m i a now,
  Inv fired m → queued m !! i = Some a → live a →
  match runBody (action a (world m)) m with
  | (Thrown, m1) => Inv (fired ++ [ticket a]) m1
  | (Returned repeat, m1) =>
      Inv (fired ++ [ticket a]) (updateQueued i (reschedule now repeat) m1)
  end.

Lemma arrive_inv fired rs m : Inv fired m → Inv fired (arrive rs m).
Proof.
  unfold arrive. revert m. induction rs as [|r rs IH]; intros m Hm; cbn.
  - done.
  - apply IH. by apply (st_schedule _ (st_api _ (Inv_stable fired))).
Qed.

Lemma waitLoop_inv fired ws m : Inv fired m → Inv fired (waitLoop ws m).2.
Proof.
  revert m. induction ws as [|[now rs] ws IH]; intros m Hm; cbn; [done |].
  pose proof (st_queuePending _ (Inv_stable fired) m Hm) as H1.
  destruct (doQueuePending m) as [sleepUntil m1]; cbn in *.
  destruct (sleepUntil <=? now); cbn; [done |].
  by apply IH, arrive_inv.
Qed.

Lemma runQueuedFrom_inv n i now fired m :
  Inv fired m →
  Inv (fired ++ (runQueuedFrom n i now m).2) (runQueuedFrom n i now m).1.2.
Proof.
  revert i fired m. induction n as [|n IH]; intros i fired m Hm; cbn.
  - by rewrite app_nil_r.
  - destruct (queued m !! i) as [a|] eqn:Ha; cbn; [| by rewrite app_nil_r].
    destruct (isCancelled a) eqn:Hc; [by apply IH |].
    destruct (triggerTime a <=? now); [| by apply IH].
    pose proof (Inv_invoke fired m i a now Hm Ha Hc) as Hf.
    unfold afterBody.
    destruct (runBody (action a (world m)) m) as [[repeat|] m1]; cbn; [| done].
    destruct (quitting _); cbn; [done |].
    specialize (IH (S i) _ _ Hf).
    destruct (runQueuedFrom n (S i) now _) as [[e m'] fired']; cbn in *.
    by rewrite <- app_assoc in IH.
Qed.

Lemma resumeQueued_inv k n i now fired m :
  Inv fired m →
  Inv (fired ++ (resumeQueued k n i now m).2) (resumeQueued k n i now m).1.2.
Proof.
  intros Hm. unfold resumeQueued, afterBody.
  pose proof (runBody_stable _ (st_api _ (Inv_stable fired)) k m Hm) as H1.
  destruct (runBody k m) as [[repeat|] m1]; cbn in *.
  - pose proof (st_update _ (Inv_stable fired) i now repeat m1 H1) as H2.
    destruct (quitting _); cbn; [by rewrite app_nil_r |].
    by apply runQueuedFrom_inv.
  - by rewrite app_nil_r.
Qed.

Lemma endOfPass_inv rest fired res :
  (∀ fired' m, Inv fired' m → quitting m = false →
     Inv (fired' ++ (rest m).2) (rest m).1.2) →
  Inv (fired ++ res.2) res.1.2 →
  Inv (fired ++ (endOfPass rest res).2) (endOfPass rest res).1.2.
Proof.
  intros Hrest. destruct res as [[[|] m] tr]; cbn; intros Hm; [| done].
  destruct (quitting m) eqn:Hq; cbn.
  - by apply (st_queuePending _ (Inv_stable _)).
  - specialize (Hrest _ _ Hm Hq).
    destruct (rest m) as [[o m'] tr']; cbn in *. by rewrite app_assoc.
Qed.

Lemma runCycles_inv cs fired m :
  Inv fired m → quitting m = false →
  Inv (fired ++ (runCycles cs m).2) (runCycles cs m).1.2.
Proof.
  revert fired m. induction cs as [|c cs IH]; intros fired m Hm Hq; cbn.
  - by rewrite app_nil_r.
  - pose proof (waitLoop_inv fired (cyWait c) _ (arrive_inv fired (cyBefore c) m Hm))
      as H1.
    pose proof (quitting_waitLoop (cyWait c) (arrive (cyBefore c) m)) as Hq1.
    rewrite quitting_arrive, Hq in Hq1.
    destruct (waitLoop (cyWait c) (arrive (cyBefore c) m)) as [[|] m1];
      cbn in *; [| by rewrite app_nil_r].
    rewrite Hq1. cbn. apply endOfPass_inv; [by apply IH |].
    apply runQueuedFrom_inv. by apply (st_check _ (Inv_stable _)).
Qed.

Lemma step_inv o fired m :
  Inv fired m → Inv (fired ++ (step o m).2) (step o m).1.
Proof.
  intros Hm. destruct o as [r | t | | | | now | k n i now | cs | k n i now cs];
    cbn; rewrite ?app_nil_r.
  - by apply (st_schedule _ (st_api _ (Inv_stable _))).
  - by apply (st_cancel _ (st_api _ (Inv_stable _))).
  - by apply (st_cancelAll _ (st_api _ (Inv_stable _))).
  - by apply (st_quit _ (st_api _ (Inv_stable _))).
  - by apply (st_queuePending _ (Inv_stable _)).
  - pose proof (runQueuedFrom_inv (length (queued m)) 0 now fired m Hm) as H.
    unfold runQueued. by destruct (runQueuedFrom _ _ _ _) as [[e m'] tr].
  - pose proof (resumeQueued_inv k n i now fired m Hm) as H.
    by destruct (resumeQueued _ _ _ _ _) as [[e m'] tr].
  - pose proof (runCycles_inv cs fired _ (st_start _ (Inv_stable _) m Hm) eq_refl)
      as H.
    unfold run. by destruct (runCycles _ _) as [[e m'] tr].
  - pose proof (endOfPass_inv (runCycles cs) fired (resumeQueued k n i now m)
                  (λ f m' H1 H2, runCycles_inv cs f m' H1 H2)
                  (resumeQueued_inv k n i now fired m Hm)) as H.
    unfold resumeRun. by destruct (endOfPass _ _) as [[e m'] tr].
Qed.

Lemma exec_inv ops fired m :
  Inv fired m → Inv (fired ++ (exec ops m).2) (exec ops m).1.
Proof.
  revert fired m. induction ops as [|o ops IH]; intros fired m Hm; cbn.
  - by rewrite app_nil_r.
  - pose proof (step_inv o fired m Hm) as H1.
    destruct (step o m) as [m1 tr1]; cbn in *.
    specialize (IH _ _ H1). destruct (exec ops m1) as [m2 tr2]; cbn in *.
    by rewrite app_assoc.
Qed.

End History.

(** The simplest use: a stable property of the machine which limits the
    tickets of the live queued entries limits the bodies invoked. *)
Lemma exec_fired (P : Machine → Prop) (F : Ticket → Prop) :
  stable P →
  (∀ m i a, P m → queued m !! i = Some a → live a → F (ticket a)) →
  ∀ ops m, P m → P (exec ops m).1 ∧ Forall F (exec ops m).2.
Proof.
  intros HP HF ops m Hm.
  pose proof (exec_inv (λ fired m, P m ∧ Forall F fired)) as H.
  apply (H) with (fired := []) (ops := ops) (m := m).
  - intros fired. apply stable_and; [done |].
    split; [split | ..]; intros; done.
  - clear H Hm m. intros fired m i a now [Hm Hf] Ha Hl.
    pose proof (runBody_stable _ (st_api _ HP) (action a (world m)) m Hm) as H1.
    assert (Forall F (fired ++ [ticket a])) as Hf'.
    { apply Forall_app. split; [done |]. apply Forall_singleton. eauto. }
    destruct (runBody (action a (world m)) m) as [[repeat|] m1]; cbn in *.
    + split; [| done]. by apply (st_update _ HP).
    + done.
  - split; [done | constructor].
Qed.

(** ** Cancellation *)

Lemma tryCancelQueued_fields t c :
  (tryCancelQueued t c).1 = (tryCancelQueued_in t (mQueuedActions c)).1 ∧
  mQueuedActions (tryCancelQueued t c).2
    = (tryCancelQueued_in t (mQueuedActions c)).2 ∧
  mPendingActions (tryCancelQueued t c).2 = mPendingActions c ∧
  mTicketCounter (tryCancelQueued t c).2 = mTicketCounter c.
Proof.
  unfold tryCancelQueued.
  by destruct (tryCancelQueued_in t (mQueuedActions c)).
Qed.

Lemma tryCancelPending_fields t c :
  (tryCancelPending t c).1 = (tryCancelPending_in t (mPendingActions c)).1 ∧
  mQueuedActions (tryCancelPending t c).2 = mQueuedActions c ∧
  mPendingActions (tryCancelPending t c).2
    = (tryCancelPending_in t (mPendingActions c)).2 ∧
  mTicketCounter (tryCancelPending t c).2 = mTicketCounter c.
Proof.
  unfold tryCancelPending.
  by destruct (tryCancelPending_in t (mPendingActions c)).
Qed.

Lemma tryCancelQueued_false t c :
  (tryCancelQueued t c).1 = false → (tryCancelQueued t c).2 = c.
Proof.
  destruct (tryCancelQueued_fields t c) as (Hr & _).
  rewrite Hr. intros [Hq _]%tryCancelQueued_in_false.
  unfold tryCancelQueued in *.
  destruct (tryCancelQueued_in t (mQueuedActions c)); cbn in *.
  subst. by destruct c.
Qed.

Lemma doCancel_fields t m :
  (doCancel t m).1 = (cancel t (looper m)).1 ∧
  looper (doCancel t m).2 = (cancel t (looper m)).2 ∧
  world (doCancel t m).2 = world m ∧
  issued (doCancel t m).2 = issued m.
Proof. unfold doCancel. by destruct (cancel t (looper m)). Qed.

(** Whoever holds a ticket for which [cancel] has answered [true] holds a
    dead ticket. *)
Lemma cancel_dead t l :
  wf (mContext l) → (cancel t l).1 = true → dead t (mContext (cancel t l).2).
Proof.
  intros [Hu Hi Hl]. destruct (cancel_context t l) as (-> & _ & ->).
  unfold entries in *. rewrite fmap_app in Hu, Hi.
  apply NoDup_app in Hu as (Hq & Hqp & Hp).
  destruct (tryCancelQueued_fields t (mContext l)) as (Hr & Hq' & Hp' & Hc').
  pose proof (tryCancelQueued_false t (mContext l)) as Hsame.
  rewrite Hr in *.
  destruct (tryCancelQueued_in t (mQueuedActions (mContext l))).1 eqn:E.
  - intros _.
    destruct (tryCancelQueued_in_true _ _ E) as (a & Ha & Hta & _).
    assert (t ∈ ticket <$> mQueuedActions (mContext l)) as Hin
      by (rewrite <- Hta; by apply list_elem_of_fmap_2).
    unfold dead. rewrite Hq', Hp', Hc'. split_and!.
    + by apply tryCancelQueued_in_done.
    + by apply Hqp.
    + apply Hi, elem_of_app. by left.
  - rewrite (Hsame eq_refl).
    destruct (tryCancelPending_fields t (mContext l)) as (Hr2 & Hq2 & Hp2 & Hc2).
    rewrite Hr2. intros Hfound.
    apply tryCancelQueued_in_false in E as [_ Hall].
    unfold dead. rewrite Hq2, Hp2, Hc2. split_and!.
    + by apply Hall.
    + by apply tryCancelPending_in_gone.
    + apply Hi, elem_of_app. right. by apply tryCancelPending_in_found.
Qed.

Lemma dead_silent t m i a :
  dead t (ctx m) → queued m !! i = Some a → live a → ticket a ≠ t.
Proof.
  intros (Hq & _ & _) Ha Hl Ht.
  apply list_elem_of_lookup_2 in Ha. specialize (Hq a Ha Ht).
  unfold live in Hl. congruence.
Qed.

(** A dead ticket stays dead and its body is not invoked, whatever
    happens. *)
Lemma dead_forever t ops m :
  dead t (ctx m) → dead t (ctx (exec ops m).1) ∧ t ∉ (exec ops m).2.
Proof.
  intros Hd.
  destruct (exec_fired (λ m, dead t (ctx m)) (λ x, x ≠ t)
              (invariant_stable _ (dead_invariant t))
              (dead_silent t) ops m Hd) as [H1 H2].
  split; [done |]. rewrite Forall_forall in H2. intros Hin. by apply (H2 t).
Qed.

Lemma cancelled_never_invoked t m :
  wf (ctx m) → (doCancel t m).1 = true →
  ∀ ops, t ∉ (exec ops (doCancel t m).2).2.
Proof.
  intros Hwf Hr ops. apply dead_forever.
  destruct (doCancel_fields t m) as (Hr' & Hl & _ & _).
  unfold ctx. rewrite Hl. apply cancel_dead; [done |]. by rewrite <- Hr'.
Qed.

(** C1.  If [cancel(t)] returns true on a registry whose tickets identify
    its entries, the ticket is dead from then on (queued entries carrying
    it are marked cancelled, no pending entry carries it), and no history
    that follows, be it further calls, reconciliations, passes, whole runs
    or the remainder of the pass in progress, invokes the body of [t]. *)
Theorem cancel_true_never_invoked (t : Ticket) (m : Machine) :
  wf (ctx m) →
  (doCancel t m).1 = true →
  dead t (ctx (doCancel t m).2) ∧
  ∀ ops, t ∉ (exec ops (doCancel t m).2).2.
Proof.
  intros Hwf Hr.
  destruct (doCancel_fields t m) as (Hr' & Hl & _ & _).
  assert (dead t (ctx (doCancel t m).2)) as Hd.
  { unfold ctx. rewrite Hl. apply cancel_dead; [done |]. by rewrite <- Hr'. }
  split; [done |]. intros ops. by apply dead_forever.
Qed.

Lemma tryCancelQueued_in_finds t l a :
  NoDup (ticket <$> l) → a ∈ l → ticket a = t → live a →
  (tryCancelQueued_in t l).1 = true.
Proof.
  intros Hnd Ha Ht Hl.
  destruct (tryCancelQueued_in t l).1 eqn:E; [done |].
  apply tryCancelQueued_in_false in E as [_ Hall].
  specialize (Hall Hnd a Ha Ht). unfold live in Hl. congruence.
Qed.

(** C7.  On a registry whose tickets identify its entries, [cancel(t)]
    returns true exactly when a non-cancelled entry carries [t], hence
    false for an unknown or already cancelled ticket.  The queued sequence
    is tried first: when [tryCancelQueued] succeeds the pending sequence is
    left alone, and only when it fails is the answer the one of
    [tryCancelPending]. *)
Theorem cancel_true_iff_live (t : Ticket) (l : Looper) :
  wf (mContext l) →
  ((cancel t l).1 = true ↔
     ∃ a, a ∈ entries (mContext l) ∧ ticket a = t ∧ live a) ∧
  ((tryCancelQueued t (mContext l)).1 = true →
     (cancel t l).1 = true ∧
     mPendingActions (mContext (cancel t l).2) = mPendingActions (mContext l)) ∧
  ((tryCancelQueued t (mContext l)).1 = false →
     (cancel t l).1 = (tryCancelPending t (mContext l)).1 ∧
     mContext (cancel t l).2 = (tryCancelPending t (mContext l)).2).
Proof.
  intros [Hu Hi Hl]. unfold entries in *. rewrite fmap_app in Hu.
  apply NoDup_app in Hu as (Hq & Hqp & Hp).
  destruct (cancel_context t l) as (Hc & _ & Hr).
  destruct (tryCancelQueued_fields t (mContext l)) as (Hr1 & Hq1 & Hp1 & _).
  destruct (tryCancelPending_fields t (mContext l)) as (Hr2 & _).
  pose proof (tryCancelQueued_false t (mContext l)) as Hsame.
  rewrite Hr1 in *. clear Hr1.
  destruct (tryCancelQueued_in t (mQueuedActions (mContext l))).1 eqn:E.
  - split_and!; [| by rewrite Hc, Hp1 | done].
    rewrite Hr. split; [intros _ | done].
    destruct (tryCancelQueued_in_true _ _ E) as (a & Ha & Hta & Hla).
    exists a. rewrite elem_of_app. by auto.
  - rewrite (Hsame eq_refl) in *. rewrite Hr2 in *.
    split_and!; [| done | done].
    rewrite Hr. split.
    + intros Hin%tryCancelPending_in_found.
      apply list_elem_of_fmap_1 in Hin as (a & -> & Ha).
      exists a. rewrite elem_of_app. split_and!; [by right | done |].
      rewrite Forall_forall in Hl. by apply Hl.
    + intros (a & Ha & Hta & Hla). apply elem_of_app in Ha as [Ha | Ha].
      * by rewrite (tryCancelQueued_in_finds t _ a) in E.
      * apply tryCancelPending_in_found.
        rewrite <- Hta. by apply list_elem_of_fmap_2.
Qed.

(** ** Nothing pending is cancelled *)

Lemma doCancel_asserts t m :
  Forall live (pending m) → asserts_ok (doCancel t m).2 = asserts_ok m.
Proof.
  intros Hl. unfold doCancel, check. destruct (cancel t (looper m)); cbn.
  rewrite (tryCancelPending_assert_live t (pending m) Hl).
  by rewrite implb_true_r, andb_true_r.
Qed.

Lemma sound_stable : stable (λ m, wf (ctx m) ∧ asserts_ok m = true).
Proof.
  pose proof (invariant_stable _ wf_invariant) as [[H1 H2 H3 H4 H5] H6 H7 H8 H9].
  split; [split | ..]; intros; destruct_and!; (split; [by auto |]); try done.
  - rewrite doCancel_asserts; [done |].
    match goal with H : wf _ |- _ => by destruct H end.
  - unfold check; cbn. by rewrite andb_true_r.
Qed.

(** Every registry reached from a new looper is well formed, and stays so
    while a body runs. *)
Lemma reachable_wf w ops : wf (ctx (exec ops (Machine_new w)).1).
Proof.
  by destruct (exec_fired _ (λ _, True) sound_stable (λ _ _ _ _ _ _, Logic.I)
                 ops (Machine_new w) (conj wf_new eq_refl)) as [[? _] _].
Qed.

Lemma runBody_wf p m : wf (ctx m) → wf (ctx (runBody p m).2).
Proof.
  apply (runBody_stable _ (st_api _ (invariant_stable _ wf_invariant))).
Qed.

(** C10.  In every machine reached from a new looper by any history, no
    pending entry is cancelled; every assertion executed on the way,
    among them each [assert (!action->isCancelled)] of [tryCancelPending],
    held; and that assertion would hold for any ticket now. *)
Theorem pending_never_cancelled (w : World) (ops : list Op) :
  Forall live (pending (exec ops (Machine_new w)).1) ∧
  asserts_ok (exec ops (Machine_new w)).1 = true ∧
  ∀ t, tryCancelPending_assert t (pending (exec ops (Machine_new w)).1) = true.
Proof.
  destruct (exec_fired _ (λ _, True) sound_stable (λ _ _ _ _ _ _, Logic.I) ops
              (Machine_new w) (conj wf_new eq_refl)) as [[[_ _ Hl] Hok] _].
  split_and!; [done | done |]. intros t. by apply tryCancelPending_assert_live.
Qed.

(** ** Reconciliation *)

Lemma wakeFrom_spec l : ∀ wake,
  wakeFrom wake l ≤ wake ∧
  (∀ a, a ∈ l → wakeFrom wake l ≤ triggerTime a) ∧
  (wakeFrom wake l = wake ∨ wakeFrom wake l ∈ triggerTime <$> l).
Proof.
  unfold wakeFrom. induction l as [|a l IH]; intros wake; simpl.
  - split_and!; [lia | | by left]. intros a Ha. by apply elem_of_nil in Ha.
  - destruct (Z.ltb_spec (triggerTime a) wake) as [Hlt | Hge].
    + destruct (IH (triggerTime a)) as (H1 & H2 & H3). split_and!.
      * lia.
      * intros b [-> | Hb]%elem_of_cons; [lia | by apply H2].
      * right. rewrite elem_of_cons. destruct H3 as [-> | H3]; by auto.
    + destruct (IH wake) as (H1 & H2 & H3). split_and!.
      * lia.
      * intros b [-> | Hb]%elem_of_cons; [lia | by apply H2].
      * destruct H3 as [-> | H3]; [by left |]. right. rewrite elem_of_cons. by auto.
Qed.

(** The value [queuePending] returns is the least trigger time of the
    sequence, and [Timepoint::max()] for the empty one. *)
Lemma wakeTime_min l :
  Forall (λ a, triggerTime a ≤ Timepoint_max) l →
  (l = [] → wakeTime l = Timepoint_max) ∧
  (l ≠ [] → wakeTime l ∈ triggerTime <$> l) ∧
  (∀ a, a ∈ l → wakeTime l ≤ triggerTime a).
Proof.
  intros Hmax. change (wakeTime l) with (wakeFrom Timepoint_max l).
  destruct (wakeFrom_spec l Timepoint_max) as (H1 & H2 & H3).
  split_and!; [by intros -> | | done].
  intros Hne. destruct H3 as [Heq | ?]; [| done].
  destruct l as [|a l]; [done |].
  assert (triggerTime a = wakeFrom Timepoint_max (a :: l)) as Ha.
  { apply Forall_cons in Hmax as [Ha _].
    specialize (H2 a (list_elem_of_here _ _)). lia. }
  rewrite <- Ha, fmap_cons. by left.
Qed.

Lemma filter_live_all l : Forall live l → filter live l = l.
Proof.
  induction 1 as [|a l Ha _ IH]; [done |].
  by rewrite filter_cons_True, IH.
Qed.

(** C2.  On a registry in which nothing pending is cancelled and whose
    trigger times are values of [Timepoint], [queuePending] moves every
    non-cancelled entry into the queued sequence (the pending ones first,
    then the queued survivors), drops every cancelled entry, leaves the
    pending sequence empty, can be called again with the same result, and
    returns the least trigger time of the new queued sequence, or
    [Timepoint::max()] when that sequence is empty. *)
Theorem queuePending_reconciles (c : LoopContext) :
  Forall live (mPendingActions c) →
  Forall (λ a, triggerTime a ≤ Timepoint_max) (entries c) →
  mQueuedActions (queuePending c).2
    = mPendingActions c ++ filter live (mQueuedActions c) ∧
  (∀ a, a ∈ entries c → (live a ↔ a ∈ mQueuedActions (queuePending c).2)) ∧
  Forall live (entries (queuePending c).2) ∧
  mPendingActions (queuePending c).2 = [] ∧
  mTicketCounter (queuePending c).2 = mTicketCounter c ∧
  queuePending (queuePending c).2 = queuePending c ∧
  (mQueuedActions (queuePending c).2 = [] →
     (queuePending c).1 = Timepoint_max) ∧
  (mQueuedActions (queuePending c).2 ≠ [] →
     (queuePending c).1 ∈ triggerTime <$> mQueuedActions (queuePending c).2) ∧
  (∀ a, a ∈ mQueuedActions (queuePending c).2 →
     (queuePending c).1 ≤ triggerTime a).
Proof.
  intros Hl Hmax. unfold entries in *. cbn. rewrite app_nil_r.
  rewrite requeue_spec.
  assert (Forall live (mPendingActions c ++ filter live (mQueuedActions c)))
    as Hlive.
  { apply Forall_app. split; [done |]. apply Forall_forall.
    by intros a [? _]%list_elem_of_filter. }
  assert (Forall (λ a, triggerTime a ≤ Timepoint_max)
            (mPendingActions c ++ filter live (mQueuedActions c))) as Hmax'.
  { rewrite Forall_forall in *. intros a Ha. apply Hmax.
    rewrite elem_of_app in *. destruct Ha as [? | [_ ?]%list_elem_of_filter];
      by auto. }
  destruct (wakeTime_min _ Hmax') as (Hw1 & Hw2 & Hw3).
  split_and!; try done.
  - intros a Ha. rewrite elem_of_app, list_elem_of_filter. split; [| intros [Hp | [? _]]].
    + intros Hla. apply elem_of_app in Ha as [? | ?]; by auto.
    + rewrite Forall_forall in Hl. by apply Hl.
    + done.
  - unfold queuePending. cbn. rewrite !requeue_spec. cbn.
    by rewrite (filter_live_all _ Hlive).
Qed.

(** ** One iteration of a pass *)

Lemma holds_evolves i a m m' :
  evolves marks (ctx m) (ctx m') → holds i a m → holds i a m'.
Proof.
  intros (_ & Hq & _) (a1 & Ha1 & Hm1).
  destruct (Forall2_lookup_l _ _ _ _ _ Hq Ha1) as (a2 & Ha2 & Hm2).
  exists a2. split; [done |]. by eapply marks_trans.
Qed.

Lemma holds_api_stable i a : api_stable (holds i a).
Proof.
  split; intros; try done.
  - eapply holds_evolves; [| eassumption]. apply doCancel_evolves.
  - eapply holds_evolves; [| eassumption]. apply cancelAll_evolves.
  - eapply holds_evolves; [| eassumption]. apply cancelAll_evolves.
Qed.

Lemma runQueuedFrom_invoke n i now m a :
  queued m !! i = Some a → live a → triggerTime a ≤ now →
  runQueuedFrom (S n) i now m =
    (let '(e, m', fired) :=
       afterBody now i (runQueuedFrom n (S i) now)
         (runBody (action a (world m)) m) in
     (e, m', ticket a :: fired)).
Proof.
  intros Ha Hl Hdue. cbn [runQueuedFrom]. rewrite Ha, Hl.
  by destruct (Z.leb_spec (triggerTime a) now); [| lia].
Qed.

(** C3.  When the loop invokes the body of a due, non-cancelled entry and
    the body returns [repeat], the entry is written back before the loop
    goes on.  With [repeat] true its trigger time becomes the old trigger
    time plus the interval if [catchUp] is set and the time of the pass
    plus the interval otherwise: the sum as the [Timepoint] stores it,
    which is the sum itself whenever that is representable.  With [repeat]
    false the entry is marked cancelled, its trigger time unchanged. *)
Theorem runQueued_reschedules (n i : nat) (now : Timepoint) (m m1 : Machine)
    (a : ManagedAction) (repeat : bool) :
  queued m !! i = Some a → live a → triggerTime a ≤ now →
  runBody (action a (world m)) m = (Returned repeat, m1) →
  runQueuedFrom (S n) i now m =
    (if quitting (updateQueued i (reschedule now repeat) m1)
     then (Completed, updateQueued i (reschedule now repeat) m1, [ticket a])
     else
       let '(e, m', fired) :=
         runQueuedFrom n (S i) now (updateQueued i (reschedule now repeat) m1) in
       (e, m', ticket a :: fired)) ∧
  ∃ a', queued (updateQueued i (reschedule now repeat) m1) !! i = Some a' ∧
    ticket a' = ticket a ∧
    (repeat = true → catchUp a = true →
       triggerTime a' = stored (triggerTime a + interval a) ∧
       (representable (triggerTime a + interval a) →
          triggerTime a' = triggerTime a + interval a)) ∧
    (repeat = true → catchUp a = false →
       triggerTime a' = stored (now + interval a) ∧
       (representable (now + interval a) →
          triggerTime a' = now + interval a)) ∧
    (repeat = false → isCancelled a' = true ∧ triggerTime a' = triggerTime a).
Proof.
  intros Ha Hl Hdue Hbody. split.
  - rewrite (runQueuedFrom_invoke n i now m a Ha Hl Hdue), Hbody.
    unfold afterBody. by destruct (quitting _).
  - assert (holds i a m1) as (a1 & Ha1 & [(Ht & _ & Hi & Hc & _) Htr]).
    { change m1 with (Returned repeat, m1).2. rewrite <- Hbody.
      apply runBody_stable; [apply holds_api_stable |].
      exists a. split; [done | apply marks_refl]. }
    exists (reschedule now repeat a1). split.
    { unfold updateQueued, queued. cbn. rewrite list_lookup_alter_eq.
      fold (queued m1). by rewrite Ha1. }
    unfold reschedule. rewrite Hc.
    destruct repeat, (catchUp a); cbn; rewrite ?Hi, ?Htr;
      split_and!; try done; intros; try done;
      (split; [done | by intros ?%stored_representable]).
Qed.

(** ** Order of invocation *)

Lemma queued_tickets_evolves m m' :
  evolves ages (ctx m) (ctx m') → ticket <$> queued m' = ticket <$> queued m.
Proof. intros (_ & Hq & _). by apply Forall2_ages_tickets. Qed.

Lemma queued_tickets_api_stable L :
  api_stable (λ m, ticket <$> queued m = L).
Proof.
  split; intros; try done.
  - erewrite queued_tickets_evolves; [eassumption |].
    apply evolves_weaken, doCancel_evolves.
  - erewrite queued_tickets_evolves; [eassumption |].
    apply evolves_weaken, cancelAll_evolves.
  - erewrite queued_tickets_evolves; [eassumption |].
    apply evolves_weaken, cancelAll_evolves.
Qed.

Lemma runQueuedFrom_order n : ∀ i now m,
  (runQueuedFrom n i now m).2 `sublist_of` drop i (ticket <$> queued m).
Proof.
  induction n as [|n IH]; intros i now m; cbn [runQueuedFrom].
  - apply sublist_nil_l.
  - destruct (queued m !! i) as [a|] eqn:Ha; [| apply sublist_nil_l].
    assert (drop i (ticket <$> queued m)
            = ticket a :: drop (S i) (ticket <$> queued m)) as Hdrop.
    { apply drop_S. by rewrite list_lookup_fmap, Ha. }
    rewrite Hdrop.
    destruct (isCancelled a); [by apply sublist_cons |].
    destruct (triggerTime a <=? now); [| by apply sublist_cons].
    pose proof (runBody_stable _ (queued_tickets_api_stable _)
                  (action a (world m)) m eq_refl) as Hsame.
    unfold afterBody.
    destruct (runBody (action a (world m)) m) as [[repeat|] m1]; cbn in *.
    + rewrite <- Hsame.
      rewrite <- (queued_tickets_evolves m1 _
                    (updateQueued_evolves i now repeat m1)).
      destruct (quitting _); cbn.
      * apply sublist_skip, sublist_nil_l.
      * specialize (IH (S i) now (updateQueued i (reschedule now repeat) m1)).
        destruct (runQueuedFrom n (S i) now _) as [[e m'] fired]; cbn in *.
        by apply sublist_skip.
    + apply sublist_skip, sublist_nil_l.
Qed.

Lemma fires_before_elem x y l : fires_before x y l → x ∈ l ∧ y ∈ l.
Proof.
  intros (l1 & l2 & l3 & ->). split.
  - apply elem_of_app. right. left.
  - apply elem_of_app. right. right. apply elem_of_app. right. left.
Qed.

Lemma fires_before_cons z x y l : fires_before x y l → fires_before x y (z :: l).
Proof. intros (l1 & l2 & l3 & ->). by exists (z :: l1), l2, l3. Qed.

Lemma fires_before_head x y l : y ∈ l → fires_before x y (x :: l).
Proof.
  intros (l2 & l3 & ->)%list_elem_of_split. by exists [], l2, l3.
Qed.

Lemma fires_before_cons_inv z x y l :
  fires_before x y (z :: l) → (x = z ∧ y ∈ l) ∨ fires_before x y l.
Proof.
  intros (l1 & l2 & l3 & H). destruct l1 as [|z' l1]; cbn in H.
  - injection H as <- ->. left. split; [done |].
    apply elem_of_app. right. left.
  - injection H as <- ->. right. by exists l1, l2, l3.
Qed.

Lemma fires_before_app_l x y l l' :
  fires_before x y l → fires_before x y (l ++ l').
Proof.
  intros (l1 & l2 & l3 & ->). exists l1, l2, (l3 ++ l').
  by repeat (rewrite <- app_assoc; cbn).
Qed.

Lemma fires_before_app_r x y l l' :
  fires_before x y l' → fires_before x y (l ++ l').
Proof.
  intros (l1 & l2 & l3 & ->). exists (l ++ l1), l2, l3.
  by repeat (rewrite <- app_assoc; cbn).
Qed.

Lemma fires_before_app x y l l' :
  x ∈ l → y ∈ l' → fires_before x y (l ++ l').
Proof.
  intros (l1 & l2 & ->)%list_elem_of_split (l3 & l4 & ->)%list_elem_of_split.
  exists l1, (l2 ++ l3), l4. by repeat (rewrite <- app_assoc; cbn).
Qed.

(** A selection from a sequence without repetition keeps its order. *)
Lemma fires_before_sublist x y l L :
  l `sublist_of` L → NoDup L → fires_before x y L → x ∈ l → y ∈ l →
  fires_before x y l.
Proof.
  induction 1 as [|z l L Hsub IH | z l L Hsub IH]; intros Hnd Hfb Hx Hy.
  - by apply elem_of_nil in Hx.
  - apply NoDup_cons in Hnd as [Hz Hnd].
    apply fires_before_cons_inv in Hfb as [[-> HyL] | Hfb].
    + apply elem_of_cons in Hy as [-> | Hy]; [done |].
      by apply fires_before_head.
    + destruct (fires_before_elem _ _ _ Hfb) as [HxL HyL].
      apply elem_of_cons in Hx as [-> | Hx]; [done |].
      apply elem_of_cons in Hy as [-> | Hy]; [done |].
      by apply fires_before_cons, IH.
  - apply NoDup_cons in Hnd as [Hz Hnd].
    apply fires_before_cons_inv in Hfb as [[-> HyL] | Hfb].
    + exfalso. apply Hz. by eapply elem_of_sublist.
    + by apply IH.
Qed.

(** C6 (as the code has it).  Within a pass the bodies are invoked in the
    order of the queued sequence, an entry that is not yet due being passed
    over unchanged: of two bodies invoked in the same pass, that of the
    entry which stands earlier in the queued sequence is invoked first.
    New entries join the pending sequence at its back.  Reconciliation
    makes the queued sequence the pending entries, in their order,
    followed by the surviving queued entries, in their order: two pending
    entries keep the order of their insertion, two surviving entries keep
    the order they had in the queued sequence, and every pending entry
    comes to stand before every surviving one, so that its body is the
    first of the two to be invoked in a pass that invokes both. *)
Theorem pass_fires_in_queue_order (now : Timepoint) (m : Machine) :
  (runQueued now m).2 `sublist_of` (ticket <$> queued m) ∧
  (∀ n i a, queued m !! i = Some a → now < triggerTime a →
     runQueuedFrom (S n) i now m = runQueuedFrom n (S i) now m) ∧
  (∀ body trigger ival cu,
     ∃ a, pending (doSchedule body trigger ival cu m).2 = pending m ++ [a] ∧
          ticket a = (doSchedule body trigger ival cu m).1) ∧
  queued (doQueuePending m).2 = pending m ++ filter live (queued m) ∧
  (∀ x y, NoDup (ticket <$> queued m) →
     fires_before x y (ticket <$> queued m) →
     x ∈ (runQueued now m).2 → y ∈ (runQueued now m).2 →
     fires_before x y (runQueued now m).2) ∧
  (∀ body trigger ival cu x, x ∈ ticket <$> pending m →
     fires_before x (doSchedule body trigger ival cu m).1
       (ticket <$> pending (doSchedule body trigger ival cu m).2)) ∧
  (∀ x y, fires_before x y (ticket <$> pending m) →
     fires_before x y (ticket <$> queued (doQueuePending m).2)) ∧
  (∀ x y, fires_before x y (ticket <$> filter live (queued m)) →
     fires_before x y (ticket <$> queued (doQueuePending m).2)) ∧
  (∀ x y, x ∈ ticket <$> pending m → y ∈ ticket <$> filter live (queued m) →
     fires_before x y (ticket <$> queued (doQueuePending m).2) ∧
     (NoDup (ticket <$> queued (doQueuePending m).2) →
      x ∈ (runQueued now (doQueuePending m).2).2 →
      y ∈ (runQueued now (doQueuePending m).2).2 →
      fires_before x y (runQueued now (doQueuePending m).2).2)).
Proof.
  assert (queued (doQueuePending m).2 = pending m ++ filter live (queued m))
    as Hrec.
  { unfold doQueuePending, queued, pending. cbn. apply requeue_spec. }
  pose proof (runQueuedFrom_order (length (queued m)) 0 now m) as Hsub.
  split_and!.
  - exact Hsub.
  - intros n i a Ha Hlate. cbn [runQueuedFrom]. rewrite Ha.
    destruct (isCancelled a); [done |].
    by destruct (Z.leb_spec (triggerTime a) now); [lia |].
  - intros body trigger ival cu. by eexists.
  - exact Hrec.
  - intros x y Hnd Hfb Hx Hy.
    by apply (fires_before_sublist x y _ (ticket <$> queued m)).
  - intros body trigger ival cu x Hx.
    change (pending (doSchedule body trigger ival cu m).2)
      with (pending m ++
              [{| ticket := (doSchedule body trigger ival cu m).1;
                  action := body; interval := ival; catchUp := cu;
                  triggerTime := trigger; isCancelled := false |}]).
    rewrite fmap_app. apply fires_before_app; [done | by left].
  - intros x y Hfb. rewrite Hrec, fmap_app. by apply fires_before_app_l.
  - intros x y Hfb. rewrite Hrec, fmap_app. by apply fires_before_app_r.
  - intros x y Hx Hy.
    assert (fires_before x y (ticket <$> queued (doQueuePending m).2)) as Hfb
      by (rewrite Hrec, fmap_app; by apply fires_before_app).
    split; [done |]. intros Hnd Hfx Hfy.
    apply (fires_before_sublist x y _ (ticket <$> queued (doQueuePending m).2));
      try done.
    apply (runQueuedFrom_order (length (queued (doQueuePending m).2)) 0 now).
Qed.

(** ** Tickets *)

Lemma counter_evolves R m m' :
  evolves R (ctx m) (ctx m') → counter m' = counter m.
Proof. by intros (? & _). Qed.

Lemma issued_ok_same m m' :
  issued m' = issued m → counter m' = counter m → issued_ok m → issued_ok m'.
Proof. unfold issued_ok. by intros -> ->. Qed.

Lemma issued_stable : stable issued_ok.
Proof.
  split; [split | ..]; intros; try (by eapply issued_ok_same; [.. | eassumption]).
  - match goal with H : issued_ok _ |- _ => destruct H as (Hs & Hf & Hc) end.
    unfold issued_ok, doSchedule, counter, ctx in *. cbn. split_and!.
    + apply StronglySorted_app. split_and!; [| done | repeat constructor].
      intros x y Hx ->%list_elem_of_singleton.
      rewrite Forall_forall in Hf. apply Hf in Hx. lia.
    + apply Forall_app. split.
      * eapply Forall_impl; [exact Hf |]. cbn. intros; lia.
      * apply Forall_singleton. lia.
    + lia.
  - eapply issued_ok_same; [| | eassumption].
    + by destruct (doCancel_fields t m) as (_ & _ & _ & ?).
    + eapply counter_evolves, doCancel_evolves.
Qed.

Lemma StronglySorted_lt_NoDup (l : list Z) : StronglySorted Z.lt l → NoDup l.
Proof.
  induction 1 as [|x l _ IH Hx]; constructor; [| done].
  rewrite Forall_forall in Hx. intros Hin. apply Hx in Hin. lia.
Qed.

(** C5 (as the code has it).  The tickets a looper returns, to whoever
    schedules and in whatever history, are strictly increasing, hence
    pairwise distinct, and greater than 100.  The counter belongs to the
    looper: each ticket is the counter of that looper plus one, and every
    new looper starts from 100 and returns 101 first. *)
Theorem tickets_increase_per_looper (w : World) (ops : list Op) :
  StronglySorted Z.lt (issued (exec ops (Machine_new w)).1) ∧
  NoDup (issued (exec ops (Machine_new w)).1) ∧
  Forall (λ t, 100 < t) (issued (exec ops (Machine_new w)).1) ∧
  (∀ body trigger ival cu c,
     (scheduleImpl body trigger ival cu c).1 = mTicketCounter c + 1 ∧
     mTicketCounter (scheduleImpl body trigger ival cu c).2
       = (scheduleImpl body trigger ival cu c).1) ∧
  ∀ body trigger ival cu, (scheduleAt body trigger ival cu Looper_new).1 = 101.
Proof.
  assert (issued_ok (Machine_new w)) as H0.
  { unfold issued_ok. cbn. split_and!; [constructor | constructor | done]. }
  destruct (exec_fired _ (λ _, True) issued_stable (λ _ _ _ _ _ _, Logic.I) ops
              (Machine_new w) H0) as [(Hs & Hf & _) _].
  split_and!; [done | by apply StronglySorted_lt_NoDup | | done | done].
  eapply Forall_impl; [exact Hf |]. cbn. intros; lia.
Qed.

(** ** Shutdown *)

Lemma doQuit_dead m t : t ≤ counter m → dead t (ctx (doQuit m)).
Proof.
  intros Ht. unfold dead. cbn. split_and!; [| | done].
  - intros a (a0 & -> & _)%list_elem_of_fmap_1. done.
  - intros H. by apply elem_of_nil in H.
Qed.

(** C8.  [quit()] marks every queued entry cancelled in place, empties the
    pending sequence and sets the quit flag.  Whatever the calling body
    does afterwards, the pass in progress invokes no further body and
    [run] does not start another cycle: it returns, or the exception of
    the calling body leaves it.  No action scheduled before the call is
    invoked in any history that follows. *)
Theorem quit_cancels_and_stops (m : Machine) :
  queued (doQuit m) = set_isCancelled true <$> queued m ∧
  Forall (λ a, isCancelled a = true) (queued (doQuit m)) ∧
  pending (doQuit m) = [] ∧
  quitting (doQuit m) = true ∧
  (∀ k n i now cs,
     (resumeRun k n i now cs (doQuit m)).2 = [] ∧
     (resumeRun k n i now cs (doQuit m)).1.1 ≠ Running) ∧
  (∀ ops, Forall (λ t, counter m < t) (exec ops (doQuit m)).2).
Proof.
  split_and!; try done.
  - apply Forall_fmap, Forall_forall. by intros a _.
  - intros k n i now cs. unfold resumeRun, resumeQueued, afterBody.
    pose proof (runBody_stable _ quitting_sticky k (doQuit m) eq_refl) as Hq.
    destruct (runBody k (doQuit m)) as [[repeat|] m1]; cbn in Hq |- *.
    + change (quitting (updateQueued i (reschedule now repeat) m1))
        with (quitting m1).
      rewrite Hq. cbn. change (quitting (updateQueued i (reschedule now repeat) m1))
        with (quitting m1). by rewrite Hq.
    + done.
  - intros ops. apply Forall_forall. intros t Hin.
    destruct (decide (counter m < t)) as [| Hle]; [done |].
    exfalso. eapply (dead_forever t ops (doQuit m)); [| exact Hin].
    apply doQuit_dead. lia.
Qed.

(** ** Actions that run once *)

Lemma times_app t l1 l2 : times t (l1 ++ l2) = (times t l1 + times t l2)%nat.
Proof. unfold times. by rewrite filter_app, length_app. Qed.

Lemma times_one t : times t [t] = 1%nat.
Proof. unfold times. by rewrite filter_cons_True. Qed.

Lemma times_other t x : x ≠ t → times t [x] = 0%nat.
Proof. intros. unfold times. by rewrite filter_cons_False. Qed.

Lemma times_absent t l : t ∉ l → times t l = 0%nat.
Proof.
  unfold times. induction l as [|x l IH]; [done |].
  intros [Hne Hnin]%not_elem_of_cons.
  rewrite filter_cons_False by congruence. by apply IH.
Qed.

Lemma once_invariant t : invariant (once t).
Proof.
  split.
  - intros c c' (Hc & Hq & Hp) [Ht Hall]. split; [by rewrite Hc |].
    intros a' [Ha' | Ha']%elem_of_app Hta.
    + destruct (Forall2_origin _ _ _ _ Hq Ha') as (a & Ha & Hage).
      destruct Hage as (Hta' & -> & _).
      apply Hall; [apply elem_of_app; by left | congruence].
    + apply Hall; [| done]. apply elem_of_app. right.
      by eapply elem_of_sublist.
  - intros body trigger ival cu c [Ht Hall]. split; cbn; [lia |].
    unfold entries. cbn. rewrite app_assoc.
    intros a [Ha | ->%list_elem_of_singleton]%elem_of_app Hta.
    + by apply Hall.
    + cbn in Hta. lia.
  - intros c [Ht Hall]. split; [done |].
    unfold entries. cbn. rewrite app_nil_r, requeue_spec.
    intros a [Ha | [_ Ha]%list_elem_of_filter]%elem_of_app Hta;
      (apply Hall; [apply elem_of_app; by auto | done]).
Qed.

(** A cancelled entry is the end of its ticket, tickets being unique. *)
Lemma cancelled_dead t i a c :
  wf c → mQueuedActions c !! i = Some a → ticket a = t →
  isCancelled a = true → dead t c.
Proof.
  intros [Hu Hi _] Ha Hta Hca. unfold entries in *. rewrite fmap_app in Hu, Hi.
  apply NoDup_app in Hu as (Hq & Hqp & _).
  assert (t ∈ ticket <$> mQueuedActions c) as Hin.
  { rewrite <- Hta. eapply list_elem_of_fmap_2, list_elem_of_lookup_2, Ha. }
  unfold dead. split_and!.
  - intros a' [j Hj]%list_elem_of_lookup_1 Hta'.
    assert (i = j) as <-; [| congruence].
    apply (NoDup_lookup (ticket <$> mQueuedActions c) i j t Hq).
    + by rewrite list_lookup_fmap, Ha, <- Hta.
    + by rewrite list_lookup_fmap, Hj, <- Hta'.
  - by apply Hqp.
  - apply Hi, elem_of_app. by left.
Qed.

(** Marking the only entry that carries a ticket kills the ticket. *)
Lemma mark_dead t i a now m :
  wf (ctx m) → queued m !! i = Some a → ticket a = t →
  dead t (ctx (updateQueued i (reschedule now false) m)).
Proof.
  intros Hwf Ha Hta.
  apply (cancelled_dead t i (reschedule now false a)).
  - by apply (st_update _ (invariant_stable _ wf_invariant)).
  - unfold updateQueued. cbn. fold (queued m).
    by rewrite list_lookup_alter_eq, Ha.
  - done.
  - done.
Qed.

(** Reconciliation deletes what carries a dead ticket. *)
Lemma dead_destroyed t m :
  dead t (ctx m) → t ∉ ticket <$> entries (ctx (doQueuePending m).2).
Proof.
  intros (Hq & Hp & _). unfold entries, doQueuePending. cbn.
  rewrite app_nil_r, requeue_spec, fmap_app, elem_of_app.
  intros [? | (a & -> & [Hl Ha]%list_elem_of_filter)%list_elem_of_fmap_1];
    [done |].
  specialize (Hq a Ha eq_refl). unfold live in Hl. congruence.
Qed.

Lemma stable_guard (A B : Prop) (D : Machine → Prop) :
  stable D → stable (λ m, A ∨ (B ∧ D m)).
Proof.
  intros [[] ? ? ? ?].
  split; [split | ..]; intros;
    match goal with H : _ ∨ _ |- _ => destruct H as [? | [? ?]] end;
    (by left) || (right; split; auto).
Qed.

Lemma once_history_stable t fired : stable (once_history t fired).
Proof.
  apply stable_and.
  - apply stable_and; apply invariant_stable;
      [apply wf_invariant | apply once_invariant].
  - apply stable_guard. exact (invariant_stable _ (dead_invariant t)).
Qed.

Lemma once_history_invoke t fired m i a now :
  once_history t fired m → queued m !! i = Some a → live a →
  match runBody (action a (world m)) m with
  | (Thrown, m1) => once_history t (fired ++ [ticket a]) m1
  | (Returned repeat, m1) =>
      once_history t (fired ++ [ticket a])
        (updateQueued i (reschedule now repeat) m1)
  end.
Proof.
  intros [[Hwf Honce] Hcount] Ha Hl.
  pose proof (once_history_stable t fired) as [Hapi Hupd _ _ _].
  pose proof (runBody_stable _ Hapi (action a (world m)) m
                (conj (conj Hwf Honce) Hcount)) as H1.
  pose proof (runBody_stable _ (holds_api_stable i a) (action a (world m)) m
                (ex_intro _ a (conj Ha (marks_refl a)))) as H2.
  destruct (decide (ticket a = t)) as [Hta | Hta].
  - (* the once-action itself *)
    destruct Hcount as [Hzero | [_ Hdead]];
      [| by destruct (dead_silent t m i a Hdead Ha Hl)].
    destruct Honce as [_ Hnr].
    assert (a ∈ entries (ctx m)) as Hain
      by (apply elem_of_app; left; eapply list_elem_of_lookup_2, Ha).
    specialize (Hnr a Hain Hta (world m) m).
    destruct (runBody (action a (world m)) m) as [r m1]; cbn in *. subst r.
    destruct H1 as [[Hwf1 Honce1] _].
    destruct H2 as (a1 & Ha1 & [(Hta1 & _) _]).
    destruct (Hupd i now false m1 (conj (conj Hwf1 Honce1) (or_introl Hzero)))
      as [Hinv _].
    split; [done |]. right. split.
    + by rewrite times_app, Hzero, Hta, times_one.
    + eapply mark_dead; [done | exact Ha1 | congruence].
  - (* another action *)
    assert (times t (fired ++ [ticket a]) = times t fired) as Heq
      by (rewrite times_app, times_other by done; lia).
    destruct (runBody (action a (world m)) m) as [[repeat|] m1]; cbn in *.
    + specialize (Hupd i now repeat m1 H1).
      unfold once_history in *. by rewrite Heq.
    + unfold once_history in *. by rewrite Heq.
Qed.

(** A dead ticket during one pass. *)
Lemma dead_pass t n i now m :
  dead t (ctx m) →
  dead t (ctx (runQueuedFrom n i now m).1.2) ∧ t ∉ (runQueuedFrom n i now m).2.
Proof.
  intros Hd.
  pose proof (runQueuedFrom_inv (λ fired m, dead t (ctx m) ∧ t ∉ fired)) as H.
  apply (H) with (fired := []) (n := n) (i := i) (now := now) (m := m).
  - clear H Hd m. intros fired m j a now' [Hd Hf] Ha Hl.
    pose proof (invariant_stable _ (dead_invariant t)) as [Hapi Hupd _ _ _].
    pose proof (runBody_stable _ Hapi (action a (world m)) m Hd) as H1.
    assert (t ∉ fired ++ [ticket a]) as Hf'.
    { rewrite not_elem_of_app, list_elem_of_singleton. split; [done |].
      intros ->. by apply (dead_silent _ m j a Hd Ha Hl). }
    destruct (runBody (action a (world m)) m) as [[repeat|] m1]; cbn in *.
    + split; [| done]. by apply Hupd.
    + done.
  - split; [done |]. intros H'. by apply elem_of_nil in H'.
Qed.

Lemma quit_cancelled_evolves m m' :
  evolves ages (ctx m) (ctx m') → quitting m' = quitting m →
  quit_cancelled m → quit_cancelled m'.
Proof.
  intros (_ & Hq & _) Hqq H Hquit. rewrite Hqq in Hquit. specialize (H Hquit).
  unfold queued in *. clear -Hq H.
  induction Hq as [|a a' l l' (_ & _ & _ & _ & Hmono) _ IH]; [constructor |].
  apply Forall_cons in H as [Ha Hl]. constructor; auto.
Qed.

Lemma quitting_doCancel t m : quitting (doCancel t m).2 = quitting m.
Proof.
  unfold quitting, doCancel.
  destruct (cancel_context t (looper m)) as (_ & Hq & _).
  by destruct (cancel t (looper m)).
Qed.

Lemma quit_cancelled_api_stable : api_stable quit_cancelled.
Proof.
  split.
  - intros body trigger ival cu m H. exact H.
  - intros t m. apply quit_cancelled_evolves.
    + apply evolves_weaken, doCancel_evolves.
    + apply quitting_doCancel.
  - intros m. apply quit_cancelled_evolves; [| done].
    apply evolves_weaken, cancelAll_evolves.
  - intros m _ _. apply Forall_fmap, Forall_forall. by intros a _.
  - intros w m H. exact H.
Qed.

Lemma holds_elsewhere i j a now repeat m :
  i ≠ j → holds i a m → holds i a (updateQueued j (reschedule now repeat) m).
Proof.
  intros Hij (a' & Ha' & Hm). exists a'. split; [| done].
  unfold updateQueued, queued. cbn. by rewrite list_lookup_alter_ne.
Qed.

(** The iteration that finds the entry of a once-action due and not
    cancelled invokes its body and leaves the ticket dead. *)
Lemma iteration_fires t n i now m a :
  wf (ctx m) → once t (ctx m) →
  queued m !! i = Some a → ticket a = t → live a → triggerTime a ≤ now →
  times t (runQueuedFrom (S n) i now m).2 = 1%nat ∧
  dead t (ctx (runQueuedFrom (S n) i now m).1.2).
Proof.
  intros Hwf Honce Ha Hta Hl Hdue.
  rewrite (runQueuedFrom_invoke n i now m a Ha Hl Hdue).
  pose proof (once_history_invoke t [] m i a now
                (conj (conj Hwf Honce) (or_introl eq_refl)) Ha Hl) as Hinv.
  destruct Honce as [_ Hnr].
  assert (a ∈ entries (ctx m)) as Hain
    by (apply elem_of_app; left; eapply list_elem_of_lookup_2, Ha).
  specialize (Hnr a Hain Hta (world m) m).
  unfold afterBody.
  destruct (runBody (action a (world m)) m) as [r m1]; cbn in Hnr. subst r.
  destruct Hinv as [_ [Hzero | [_ Hdead]]].
  { cbn [app] in Hzero. rewrite Hta, times_one in Hzero. lia. }
  destruct (quitting _).
  - cbn [fst snd]. by rewrite Hta, times_one.
  - destruct (dead_pass t n (S i) now _ Hdead) as [Hdead' Hnin].
    destruct (runQueuedFrom n (S i) now _) as [[e m'] fired];
      cbn [fst snd] in *.
    split; [| done].
    change (ticket a :: fired) with ([ticket a] ++ fired).
    rewrite times_app, Hta, times_one, (times_absent _ _ Hnin). lia.
Qed.

(** A pass that finds the entry of a once-action due does not complete
    without having invoked its body or found it cancelled. *)
Lemma pass_settles t i a now n : ∀ j m,
  (j ≤ i < j + n)%nat →
  wf (ctx m) → once t (ctx m) → quit_cancelled m → holds i a m →
  ticket a = t → triggerTime a ≤ now →
  (runQueuedFrom n j now m).1.1 = Completed →
  dead t (ctx (runQueuedFrom n j now m).1.2).
Proof.
  induction n as [|n IH]; intros j m Hji Hwf Honce Hquit Hholds Hta Hdue;
    [lia |].
  destruct Hholds as (a' & Ha' & Hm). pose proof Hm as [(Hta' & _) Htr].
  destruct (isCancelled a') eqn:Hca'.
  { intros _. apply dead_pass.
    apply (cancelled_dead t i a'); [done | done | congruence | done]. }
  destruct (decide (j = i)) as [-> | Hne].
  { intros _.
    assert (ticket a' = t) as Hta'' by congruence.
    assert (triggerTime a' ≤ now) as Hdue' by lia.
    exact (proj2 (iteration_fires t n i now m a' Hwf Honce Ha' Hta'' Hca' Hdue')). }
  assert (is_Some (queued m !! j)) as [b Hb].
  { apply lookup_lt_is_Some. apply lookup_lt_Some in Ha'. lia. }
  assert (holds i a m) as Hholds by (by exists a').
  assert (∀ m', wf (ctx m') → once t (ctx m') → quit_cancelled m' →
            holds i a m' →
            (runQueuedFrom n (S j) now m').1.1 = Completed →
            dead t (ctx (runQueuedFrom n (S j) now m').1.2)) as Hnext.
  { intros m' ? ? ? ?. apply IH; [lia | done..]. }
  cbn [runQueuedFrom]. rewrite Hb.
  destruct (isCancelled b) eqn:Hcb; [by apply Hnext |].
  destruct (triggerTime b <=? now); [| by apply Hnext].
  pose proof (runBody_stable _ (st_api _ (invariant_stable _ wf_invariant))
                (action b (world m)) m Hwf) as Hwf1.
  pose proof (runBody_stable _ (st_api _ (invariant_stable _ (once_invariant t)))
                (action b (world m)) m Honce) as Honce1.
  pose proof (runBody_stable _ quit_cancelled_api_stable
                (action b (world m)) m Hquit) as Hquit1.
  pose proof (runBody_stable _ (holds_api_stable i a)
                (action b (world m)) m Hholds) as Hholds1.
  unfold afterBody.
  destruct (runBody (action b (world m)) m) as [[repeat|] m1];
    cbn [fst snd] in *; [| done].
  pose proof (st_update _ (invariant_stable _ wf_invariant) j now repeat m1 Hwf1)
    as Hwf2.
  pose proof (st_update _ (invariant_stable _ (once_invariant t)) j now repeat
                m1 Honce1) as Honce2.
  pose proof (quit_cancelled_evolves m1 _ (updateQueued_evolves j now repeat m1)
                eq_refl Hquit1) as Hquit2.
  assert (i ≠ j) as Hne' by congruence.
  pose proof (holds_elsewhere i j a now repeat m1 Hne' Hholds1) as Hholds2.
  cbn beta in Hwf2, Honce2.
  destruct (quitting (updateQueued j (reschedule now repeat) m1)) eqn:Hq.
  - intros _. cbn [fst snd].
    destruct Hholds2 as (a2 & Ha2 & [(Hta2 & _) _]).
    apply (cancelled_dead t i a2); [done | done | congruence |].
    specialize (Hquit2 Hq). rewrite Forall_forall in Hquit2.
    eapply Hquit2, list_elem_of_lookup_2, Ha2.
  - specialize (Hnext _ Hwf2 Honce2 Hquit2 Hholds2).
    by destruct (runQueuedFrom n (S j) now _) as [[e m'] fired].
Qed.

(** *** An action nobody cancels *)

Lemma exec_app ops1 ops2 m :
  exec (ops1 ++ ops2) m =
    (let '(m1, fired1) := exec ops1 m in
     let '(m2, fired2) := exec ops2 m1 in (m2, fired1 ++ fired2)).
Proof.
  revert m. induction ops1 as [|o ops1 IH]; intros m; cbn [exec app].
  - by destruct (exec ops2 m).
  - destruct (step o m) as [m1 f1]. rewrite IH.
    destruct (exec ops1 m1) as [m2 f2]. destruct (exec ops2 m2) as [m3 f3].
    by rewrite app_assoc.
Qed.

Lemma run_running cs m : quitting m = false → run cs m = runCycles cs m.
Proof.
  intros Hq. unfold run. f_equal.
  destruct m as [[c q] w iss ok]. cbn in *. by subst.
Qed.

(** Tickets identify entries. *)
Lemma unique_entry c a b :
  wf c → a ∈ entries c → b ∈ entries c → ticket a = ticket b → a = b.
Proof.
  intros [Hu _ _] [i Hi]%list_elem_of_lookup_1 [j Hj]%list_elem_of_lookup_1 Hab.
  assert (i = j) as <-; [| congruence].
  apply (NoDup_lookup (ticket <$> entries c) i j (ticket a) Hu).
  - by rewrite list_lookup_fmap, Hi.
  - by rewrite list_lookup_fmap, Hj, Hab.
Qed.

Lemma located c a j :
  wf c → a ∈ entries c →
  (ticket <$> mQueuedActions c) !! j = Some (ticket a) →
  mQueuedActions c !! j = Some a.
Proof.
  intros Hwf Ha Hj. rewrite list_lookup_fmap in Hj.
  destruct (mQueuedActions c !! j) as [b|] eqn:Hb; [| done].
  cbn in Hj. injection Hj as Hj. f_equal.
  apply (unique_entry c b a Hwf); [| done | done].
  apply elem_of_app. left. by eapply list_elem_of_lookup_2.
Qed.

Lemma waiting_once a m :
  waiting a m → never_repeats (action a) → once (ticket a) (ctx m).
Proof.
  intros (Hwf & _ & Ha & _) Hnr. split.
  - apply (wf_issued _ Hwf). by apply list_elem_of_fmap_2.
  - intros b Hb Hba. by rewrite (unique_entry _ b a Hwf Hb Ha Hba).
Qed.

Lemma waiting_same a m m' :
  ctx m' = ctx m → quitting m' = quitting m → waiting a m → waiting a m'.
Proof. unfold waiting. by intros -> ->. Qed.

(** The entries of a later registry come from those of the earlier one,
    with their tickets and bodies. *)
Lemma evolves_origin c c' b' :
  evolves ages c c' → b' ∈ entries c' →
  ∃ b, b ∈ entries c ∧ ticket b' = ticket b ∧ action b' = action b.
Proof.
  intros (_ & Hq & Hp) [Hb | Hb]%elem_of_app.
  - destruct (Forall2_origin _ _ _ _ Hq Hb) as (b & Hin & (? & ? & _)).
    exists b. split; [apply elem_of_app; by left | done].
  - exists b'. split; [| done]. apply elem_of_app. right.
    by eapply elem_of_sublist.
Qed.

Lemma waiting_doSchedule a body trigger ival cu m :
  waiting a m → (∀ w, bystander (ticket a) (body w)) →
  waiting a (doSchedule body trigger ival cu m).2.
Proof.
  intros (Hwf & Hq & Ha & Hby) Hbody. split_and!.
  - by apply (st_schedule _ (st_api _ (invariant_stable _ wf_invariant))).
  - done.
  - unfold entries, doSchedule in *. cbn. rewrite app_assoc.
    apply elem_of_app. by left.
  - unfold entries, doSchedule in *. cbn. rewrite app_assoc.
    intros b [Hb | ->%list_elem_of_singleton]%elem_of_app Hne w.
    + by apply Hby.
    + apply Hbody.
Qed.

Lemma cancel_keeps t l a :
  a ∈ entries (mContext l) → ticket a ≠ t →
  a ∈ entries (mContext (cancel t l).2).
Proof.
  intros Ha Hne.
  assert (∀ l1 l2 : list ManagedAction,
            filter (λ x, ticket x ≠ t) l2 = filter (λ x, ticket x ≠ t) l1 →
            a ∈ l1 → a ∈ l2) as Hfilter.
  { intros l1 l2 Heq Hin.
    assert (a ∈ filter (λ x, ticket x ≠ t) l2) as H
      by (rewrite Heq; by apply list_elem_of_filter).
    by apply list_elem_of_filter in H as [_ H]. }
  destruct (cancel_context t l) as (-> & _ & _).
  destruct (tryCancelQueued_fields t (mContext l)) as (_ & Hq1 & Hp1 & _).
  destruct (tryCancelPending_fields t (tryCancelQueued t (mContext l)).2)
    as (_ & Hq2 & Hp2 & _).
  unfold entries in *.
  destruct (tryCancelQueued t (mContext l)).1.
  - rewrite Hq1, Hp1. apply elem_of_app in Ha as [Ha | Ha]; apply elem_of_app;
      [left | by right].
    eapply Hfilter; [apply tryCancelQueued_in_others | done].
  - rewrite Hq2, Hp2, Hq1, Hp1.
    apply elem_of_app in Ha as [Ha | Ha]; apply elem_of_app; [left | right].
    + eapply Hfilter; [apply tryCancelQueued_in_others | done].
    + eapply Hfilter; [apply tryCancelPending_in_others | done].
Qed.

Lemma waiting_doCancel a t m :
  waiting a m → t ≠ ticket a → waiting a (doCancel t m).2.
Proof.
  intros (Hwf & Hq & Ha & Hby) Hne. split_and!.
  - by apply (st_cancel _ (st_api _ (invariant_stable _ wf_invariant))).
  - by rewrite quitting_doCancel.
  - destruct (doCancel_fields t m) as (_ & Hl & _ & _).
    unfold ctx. rewrite Hl. apply cancel_keeps; [done | congruence].
  - intros b' Hb' Hne' w.
    destruct (evolves_origin _ _ b' (evolves_weaken _ _ (doCancel_evolves t m)) Hb')
      as (b & Hb & Htb & ->).
    apply Hby; [done | congruence].
Qed.

Lemma waiting_runBody a p :
  bystander (ticket a) p →
  ∀ m, waiting a m →
    ∃ repeat, (runBody p m).1 = Returned repeat ∧ waiting a (runBody p m).2.
Proof.
  induction 1 as [repeat w | body trigger ival cu k Hbody _ _ IH | t' k Hne _ IH];
    intros m Hm; cbn [runBody].
  - exists repeat. split; [done |]. by apply (waiting_same a m).
  - pose proof (waiting_doSchedule a body trigger ival cu m Hm Hbody) as H1.
    destruct (doSchedule body trigger ival cu m) as [t m1]. by apply IH.
  - pose proof (waiting_doCancel a t' m Hm Hne) as H1.
    destruct (doCancel t' m) as [r m1]. by apply IH.
Qed.

Lemma waiting_update a i now repeat m b :
  waiting a m → queued m !! i = Some b → ticket b ≠ ticket a →
  waiting a (updateQueued i (reschedule now repeat) m).
Proof.
  intros (Hwf & Hq & Ha & Hby) Hb Hne. split_and!.
  - by apply (st_update _ (invariant_stable _ wf_invariant)).
  - done.
  - unfold entries, updateQueued in *. cbn.
    apply elem_of_app in Ha as [Ha | Ha]; apply elem_of_app; [left | by right].
    apply list_elem_of_lookup_1 in Ha as [j Hj].
    apply list_elem_of_lookup. exists j.
    rewrite list_lookup_alter_ne; [done |].
    intros ->. unfold queued in Hb. rewrite Hj in Hb. by injection Hb as ->.
  - intros b' Hb' Hne' w.
    destruct (evolves_origin _ _ b' (updateQueued_evolves i now repeat m) Hb')
      as (b0 & Hb0 & Htb & ->).
    apply Hby; [done | congruence].
Qed.

(** The iteration that invokes another entry leaves the waiting one as it
    is. *)
Lemma bystander_iteration a i now m b :
  waiting a m → queued m !! i = Some b → ticket b ≠ ticket a →
  ∃ repeat m1,
    runBody (action b (world m)) m = (Returned repeat, m1) ∧
    waiting a (updateQueued i (reschedule now repeat) m1) ∧
    ticket <$> queued (updateQueued i (reschedule now repeat) m1)
      = ticket <$> queued m.
Proof.
  intros Hm Hb Hne.
  assert (b ∈ entries (ctx m)) as Hin
    by (apply elem_of_app; left; by eapply list_elem_of_lookup_2).
  destruct Hm as (Hwf & Hq & Ha & Hby).
  destruct (waiting_runBody a _ (Hby b Hin Hne (world m)) m
              (conj Hwf (conj Hq (conj Ha Hby)))) as (repeat & Hr & Hm1).
  pose proof (runBody_stable _ (holds_api_stable i b) (action b (world m)) m
                (ex_intro _ b (conj Hb (marks_refl b)))) as (b1 & Hb1 & [(Htb & _) _]).
  pose proof (runBody_stable _ (queued_tickets_api_stable _)
                (action b (world m)) m eq_refl) as Hsame.
  destruct (runBody (action b (world m)) m) as [r m1]; cbn [fst snd] in *.
  subst r. exists repeat, m1. split_and!; [done | |].
  - apply (waiting_update a i now repeat m1 b1); [done | done | congruence].
  - rewrite <- Hsame.
    apply queued_tickets_evolves, updateQueued_evolves.
Qed.

(** A pass leaves the waiting entry waiting, or invokes its body. *)
Lemma pass_waiting a now n : ∀ i m,
  waiting a m → live a → never_repeats (action a) →
  (runQueuedFrom n i now m).1.1 = Completed ∧
    (ticket a ∉ (runQueuedFrom n i now m).2) ∧
    waiting a (runQueuedFrom n i now m).1.2
  ∨ times (ticket a) (runQueuedFrom n i now m).2 = 1%nat ∧
    dead (ticket a) (ctx (runQueuedFrom n i now m).1.2).
Proof.
  induction n as [|n IH]; intros i m Hm Hl Hnr.
  { left. cbn. split_and!; [done | | done]. intros H. by apply elem_of_nil in H. }
  destruct (queued m !! i) as [b|] eqn:Hb.
  2: { left. cbn [runQueuedFrom]. rewrite Hb. cbn. split_and!; [done | | done].
       intros H. by apply elem_of_nil in H. }
  destruct (isCancelled b) eqn:Hcb.
  { cbn [runQueuedFrom]. rewrite Hb, Hcb. by apply IH. }
  destruct (Z.leb_spec (triggerTime b) now) as [Hdue | Hlate].
  2: { cbn [runQueuedFrom]. rewrite Hb, Hcb.
       destruct (Z.leb_spec (triggerTime b) now); [lia |]. by apply IH. }
  destruct (decide (ticket b = ticket a)) as [Heq | Hne].
  - right.
    apply (iteration_fires (ticket a) n i now m b); try done.
    + by destruct Hm.
    + by apply waiting_once.
  - destruct (bystander_iteration a i now m b Hm Hb Hne)
      as (repeat & m1 & Hbody & Hm2 & _).
    rewrite (runQueuedFrom_invoke n i now m b Hb Hcb Hdue), Hbody.
    unfold afterBody.
    destruct Hm2 as (Hwf2 & Hq2 & Hrest). rewrite Hq2.
    specialize (IH (S i) _ (conj Hwf2 (conj Hq2 Hrest)) Hl Hnr).
    destruct (runQueuedFrom n (S i) now _) as [[e m'] fired];
      cbn [fst snd] in *.
    destruct IH as [(He & Hnin & Hm') | (Hone & Hdead)]; [left | right].
    + split_and!; [done | | done].
      apply not_elem_of_cons. split; [congruence | done].
    + split; [| done].
      change (ticket b :: fired) with ([ticket b] ++ fired).
      by rewrite times_app, times_other.
Qed.

(** A pass that finds the waiting entry due invokes its body. *)
Lemma pass_fires a now n : ∀ i m j,
  waiting a m → live a → never_repeats (action a) →
  queued m !! j = Some a → (i ≤ j < i + n)%nat → triggerTime a ≤ now →
  times (ticket a) (runQueuedFrom n i now m).2 = 1%nat ∧
  dead (ticket a) (ctx (runQueuedFrom n i now m).1.2).
Proof.
  induction n as [|n IH]; intros i m j Hm Hl Hnr Hj Hij Hdue; [lia |].
  destruct (decide (i = j)) as [-> | Hne].
  { apply (iteration_fires (ticket a) n j now m a); try done.
    - by destruct Hm.
    - by apply waiting_once. }
  assert (is_Some (queued m !! i)) as [b Hb].
  { apply lookup_lt_is_Some. apply lookup_lt_Some in Hj. lia. }
  assert (ticket b ≠ ticket a) as Hba.
  { intros Heq. apply Hne. destruct Hm as ([Hu _ _] & _).
    unfold entries in Hu. rewrite fmap_app in Hu.
    apply NoDup_app in Hu as (Hu & _).
    apply (NoDup_lookup _ i j (ticket a) Hu).
    - unfold queued in Hb. by rewrite list_lookup_fmap, Hb, <- Heq.
    - unfold queued in Hj. by rewrite list_lookup_fmap, Hj. }
  assert (∀ m', waiting a m' → queued m' !! j = Some a →
            times (ticket a) (runQueuedFrom n (S i) now m').2 = 1%nat ∧
            dead (ticket a) (ctx (runQueuedFrom n (S i) now m').1.2)) as Hnext.
  { intros m' Hm' Hj'. apply (IH (S i) m' j); try done. lia. }
  destruct (isCancelled b) eqn:Hcb.
  { cbn [runQueuedFrom]. rewrite Hb, Hcb. by apply Hnext. }
  destruct (Z.leb_spec (triggerTime b) now) as [Hdueb | Hlate].
  2: { cbn [runQueuedFrom]. rewrite Hb, Hcb.
       destruct (Z.leb_spec (triggerTime b) now); [lia |]. by apply Hnext. }
  destruct (bystander_iteration a i now m b Hm Hb Hba)
    as (repeat & m1 & Hbody & Hm2 & Hsame).
  rewrite (runQueuedFrom_invoke n i now m b Hb Hcb Hdueb), Hbody.
  unfold afterBody.
  assert (queued (updateQueued i (reschedule now repeat) m1) !! j = Some a)
    as Hj2.
  { destruct Hm2 as (Hwf2 & _ & Ha2 & _).
    apply (located _ a j Hwf2 Ha2). fold (queued (updateQueued i (reschedule now repeat) m1)).
    rewrite Hsame. by rewrite list_lookup_fmap, Hj. }
  destruct (Hnext _ Hm2 Hj2) as [Hone Hdead].
  destruct Hm2 as (_ & -> & _).
  destruct (runQueuedFrom n (S i) now _) as [[e m'] fired]; cbn [fst snd] in *.
  split; [| done].
  change (ticket b :: fired) with ([ticket b] ++ fired).
  by rewrite times_app, times_other.
Qed.

Lemma waiting_doQueuePending a m :
  waiting a m → live a →
  waiting a (doQueuePending m).2 ∧ a ∈ queued (doQueuePending m).2.
Proof.
  intros (Hwf & Hq & Ha & Hby) Hl.
  assert (a ∈ queued (doQueuePending m).2) as Hin.
  { unfold doQueuePending, queued. cbn. rewrite requeue_spec.
    apply elem_of_app in Ha as [Ha | Ha]; apply elem_of_app; [right | by left].
    by apply list_elem_of_filter. }
  split; [| done]. split_and!.
  - by apply (st_queuePending _ (invariant_stable _ wf_invariant)).
  - done.
  - apply elem_of_app. by left.
  - intros b Hb. apply Hby. revert Hb.
    unfold entries, doQueuePending. cbn. rewrite app_nil_r, requeue_spec.
    intros [Hb | [_ Hb]%list_elem_of_filter]%elem_of_app; apply elem_of_app;
      by auto.
Qed.

Lemma waiting_arrive a rs : ∀ m,
  waiting a m → Forall (bystander_request (ticket a)) rs →
  waiting a (arrive rs m).
Proof.
  unfold arrive. induction rs as [|r rs IH]; intros m Hm Hrs; cbn; [done |].
  apply Forall_cons in Hrs as [Hr Hrs]. apply IH; [| done].
  by apply waiting_doSchedule.
Qed.

Lemma waiting_waitLoop a ws : ∀ m,
  waiting a m → live a →
  Forall (λ w, Forall (bystander_request (ticket a)) w.2) ws →
  waiting a (waitLoop ws m).2 ∧
  ((waitLoop ws m).1 = true → pending (waitLoop ws m).2 = []).
Proof.
  induction ws as [|[now rs] ws IH]; intros m Hm Hl Hws; cbn [waitLoop];
    [done |].
  apply Forall_cons in Hws as [Hrs Hws]. cbn in Hrs.
  destruct (waiting_doQueuePending a m Hm Hl) as [H1 _].
  assert (pending (doQueuePending m).2 = []) as Hp by done.
  destruct (doQueuePending m) as [sleepUntil m1]; cbn [fst snd] in *.
  destruct (sleepUntil <=? now); cbn [fst snd]; [done |].
  apply IH; [by apply waiting_arrive | done | done].
Qed.

(** Once the ticket is dead, the rest of [run] does not invoke it. *)
Lemma endOfPass_dead t cs res :
  dead t (ctx res.1.2) →
  dead t (ctx (endOfPass (runCycles cs) res).1.2) ∧
  times t (endOfPass (runCycles cs) res).2 = times t res.2.
Proof.
  destruct res as [[[|] m] fired]; cbn [fst snd endOfPass]; intros Hd; [| done].
  destruct (quitting m) eqn:Hq; cbn [fst snd].
  - split; [| done].
    by apply (st_queuePending _ (invariant_stable _ (dead_invariant t))).
  - destruct (dead_forever t [OpRun cs] m Hd) as [Hd' Hnin].
    cbn in Hd', Hnin. rewrite (run_running cs m Hq) in Hd', Hnin.
    destruct (runCycles cs m) as [[o m'] fired']; cbn [fst snd] in *.
    rewrite app_nil_r in Hnin. split; [done |].
    rewrite times_app, (times_absent _ _ Hnin). lia.
Qed.

Lemma runCycles_waiting a cs : ∀ m,
  waiting a m → live a → never_repeats (action a) →
  Forall (bystander_cycle (ticket a)) cs →
  (ticket a ∉ (runCycles cs m).2) ∧ waiting a (runCycles cs m).1.2
  ∨ times (ticket a) (runCycles cs m).2 = 1%nat ∧
    dead (ticket a) (ctx (runCycles cs m).1.2).
Proof.
  induction cs as [|c cs IH]; intros m Hm Hl Hnr Hcs; cbn [runCycles].
  { left. split; [| done]. intros H. by apply elem_of_nil in H. }
  apply Forall_cons in Hcs as [[Hbefore Hwait] Hcs].
  destruct (waiting_waitLoop a (cyWait c) _
              (waiting_arrive a (cyBefore c) m Hm Hbefore) Hl Hwait) as [Hm1 _].
  destruct (waitLoop (cyWait c) (arrive (cyBefore c) m)) as [[|] m1];
    cbn [fst snd] in *.
  2: { left. split; [| done]. intros H. by apply elem_of_nil in H. }
  assert (waiting a (check (negb (quitting m1)) m1)) as Hm2
    by (by apply (waiting_same a m1)).
  unfold runQueued.
  destruct (pass_waiting a (cyNow c)
              (length (queued (check (negb (quitting m1)) m1))) 0 _ Hm2 Hl Hnr)
    as [(He & Hnin & Hm3) | (Hone & Hdead)].
  - destruct (runQueuedFrom _ 0 (cyNow c) _) as [[e m3] fired];
      cbn [fst snd] in *. subst e. cbn [endOfPass].
    pose proof Hm3 as (_ & -> & _).
    specialize (IH m3 Hm3 Hl Hnr Hcs).
    destruct (runCycles cs m3) as [[o m'] fired']; cbn [fst snd] in *.
    destruct IH as [(Hnin' & Hm') | (Hone & Hdead)]; [left | right].
    + split; [| done]. rewrite not_elem_of_app. by split.
    + split; [| done]. rewrite times_app, (times_absent _ _ Hnin). lia.
  - right.
    destruct (endOfPass_dead (ticket a) cs
                (runQueuedFrom (length (queued (check (negb (quitting m1)) m1)))
                   0 (cyNow c) (check (negb (quitting m1)) m1)) Hdead)
      as [Hd Ht].
    split; [by rewrite Ht | done].
Qed.

Lemma step_waiting a o m :
  waiting a m → live a → never_repeats (action a) →
  bystander_op (ticket a) o →
  (ticket a ∉ (step o m).2) ∧ waiting a (step o m).1
  ∨ times (ticket a) (step o m).2 = 1%nat ∧ dead (ticket a) (ctx (step o m).1).
Proof.
  intros Hm Hl Hnr Ho.
  assert (ticket a ∉ []) as Hnil by (intros H; by apply elem_of_nil in H).
  destruct o as [r | t | | | | now | k n i now | cs | k n i now cs];
    cbn [step bystander_op] in *; try done.
  - left. split; [done |]. by apply waiting_doSchedule.
  - left. split; [done |]. by apply waiting_doCancel.
  - left. split; [done |]. by apply waiting_doQueuePending.
  - unfold runQueued.
    destruct (pass_waiting a now (length (queued m)) 0 m Hm Hl Hnr)
      as [(_ & Hnin & Hm') | H]; [left | right];
      by destruct (runQueuedFrom _ 0 now m) as [[e m'] fired].
  - assert (waiting a (with_looper {| mContext := ctx m; mQuit := false |} m))
      as Hm0.
    { destruct Hm as (? & ? & ? & ?). by split_and!. }
    unfold run.
    destruct (runCycles_waiting a cs _ Hm0 Hl Hnr Ho) as [H | H]; [left | right];
      by destruct (runCycles cs _) as [[e m'] fired].
Qed.

Lemma exec_waiting a ops : ∀ m,
  waiting a m → live a → never_repeats (action a) →
  Forall (bystander_op (ticket a)) ops →
  (ticket a ∉ (exec ops m).2) ∧ waiting a (exec ops m).1
  ∨ times (ticket a) (exec ops m).2 = 1%nat ∧ dead (ticket a) (ctx (exec ops m).1).
Proof.
  induction ops as [|o ops IH]; intros m Hm Hl Hnr Hops; cbn [exec].
  { left. split; [| done]. intros H. by apply elem_of_nil in H. }
  apply Forall_cons in Hops as [Ho Hops].
  destruct (step_waiting a o m Hm Hl Hnr Ho) as [(Hnin & Hm1) | (Hone & Hdead)].
  - specialize (IH (step o m).1 Hm1 Hl Hnr Hops).
    destruct (step o m) as [m1 fired]; cbn [fst snd] in *.
    destruct (exec ops m1) as [m2 fired']; cbn [fst snd] in *.
    destruct IH as [(Hnin' & Hm2) | (Hone & Hdead)]; [left | right].
    + split; [| done]. rewrite not_elem_of_app. by split.
    + split; [| done]. rewrite times_app, (times_absent _ _ Hnin). lia.
  - right. destruct (dead_forever (ticket a) ops (step o m).1 Hdead) as [Hd Hnin].
    destruct (step o m) as [m1 fired]; cbn [fst snd] in *.
    destruct (exec ops m1) as [m2 fired']; cbn [fst snd] in *.
    split; [| done]. rewrite times_app, (times_absent _ _ Hnin). lia.
Qed.

(** Left alone, the action is invoked by the first pass that finds it
    due. *)
Lemma waiting_fires_pass a now m :
  waiting a m → live a → never_repeats (action a) → triggerTime a ≤ now →
  times (ticket a) (exec [OpQueuePending; OpRunQueued now] m).2 = 1%nat.
Proof.
  intros Hm Hl Hnr Hdue. cbn [exec step].
  destruct (waiting_doQueuePending a m Hm Hl) as [Hm1 Hin].
  destruct (doQueuePending m) as [wake m1]; cbn [fst snd] in *.
  apply list_elem_of_lookup_1 in Hin as [j Hj].
  destruct (pass_fires a now (length (queued m1)) 0 m1 j Hm1 Hl Hnr Hj)
    as [Hone _]; [apply lookup_lt_Some in Hj; lia | done |].
  unfold runQueued.
  destruct (runQueuedFrom _ 0 now m1) as [[e m2] fired]; cbn [fst snd] in *.
  by rewrite app_nil_r.
Qed.

Lemma waiting_fires_run a now cs m :
  waiting a m → live a → never_repeats (action a) → triggerTime a ≤ now →
  times (ticket a) (exec [OpRun (tick now :: cs)] m).2 = 1%nat.
Proof.
  intros Hm Hl Hnr Hdue. cbn [exec step].
  assert (waiting a (with_looper {| mContext := ctx m; mQuit := false |} m))
    as Hm0.
  { destruct Hm as (? & ? & ? & ?). by split_and!. }
  unfold run.
  cbn [runCycles tick cyBefore cyWait cyNow arrive fold_left waitLoop].
  destruct (waiting_doQueuePending a _ Hm0 Hl) as [Hm1 Hin].
  assert ((doQueuePending
             (with_looper {| mContext := ctx m; mQuit := false |} m)).1
          ≤ triggerTime a) as Hwake.
  { unfold doQueuePending. cbn [queuePending fst].
    apply (wakeFrom_spec _ Timepoint_max). exact Hin. }
  destruct (doQueuePending _) as [wake m1]; cbn [fst snd] in *.
  destruct (Z.leb_spec wake now) as [_ |]; [| lia].
  pose proof Hm1 as (_ & Hq1 & _). rewrite Hq1. cbn [negb].
  assert (waiting a (check true m1)) as Hm2 by done.
  assert (a ∈ queued (check true m1)) as Hin2 by done.
  apply list_elem_of_lookup_1 in Hin2 as [j Hj].
  destruct (pass_fires a now (length (queued (check true m1))) 0 _ j
              Hm2 Hl Hnr Hj) as [Hone Hdead];
    [apply lookup_lt_Some in Hj; lia | done |].
  unfold runQueued.
  destruct (endOfPass_dead (ticket a) cs
              (runQueuedFrom (length (queued (check true m1))) 0 now
                 (check true m1)) Hdead) as [_ Ht].
  destruct (endOfPass _ _) as [[o m'] fired]; cbn [fst snd] in *.
  rewrite app_nil_r. lia.
Qed.

(** C4.  Let [t] be the ticket of a non-repeating action in a registry
    whose tickets identify its entries.  In every history the body of [t]
    is invoked at most once.  If [cancel(t)] returns true it is not
    invoked afterwards.  The iteration that finds the entry due and not
    cancelled invokes it, so that it has then been invoked exactly once in
    that pass, marks the entry cancelled, the next reconciliation deletes
    it, and it is never invoked again.  A pass that starts with the entry
    due and not cancelled and runs to its end leaves the ticket dead: the
    body has been invoked, or the entry was cancelled before its turn.
    Finally, let the entry be in the registry, not cancelled, and let
    nothing cancel it: the history [ops] contains neither [cancel(t)] nor
    [cancelAll()] nor [quit()], by a caller or by the body of another
    action, and no such body throws.  Then the entry is not lost: as long
    as its body has not been invoked the registry holds it, unchanged,
    and reconciliation puts it in the queued sequence.  And the body is
    invoked exactly once, whatever follows, as soon as a pass, on its own
    or in a cycle of [run], takes place at or after the trigger time. *)
Theorem once_action_fires_once (t : Ticket) (m : Machine) :
  wf (ctx m) → once t (ctx m) →
  (∀ ops, (times t (exec ops m).2 ≤ 1)%nat) ∧
  ((doCancel t m).1 = true →
     ∀ ops, times t (exec ops (doCancel t m).2).2 = 0%nat) ∧
  (∀ n i now a,
     queued m !! i = Some a → ticket a = t → live a → triggerTime a ≤ now →
     times t (runQueuedFrom (S n) i now m).2 = 1%nat ∧
     dead t (ctx (runQueuedFrom (S n) i now m).1.2) ∧
     (t ∉ ticket <$>
        entries (ctx (doQueuePending (runQueuedFrom (S n) i now m).1.2).2)) ∧
     ∀ ops, times t (exec ops (runQueuedFrom (S n) i now m).1.2).2 = 0%nat) ∧
  (∀ i now a,
     queued m !! i = Some a → ticket a = t → live a → triggerTime a ≤ now →
     quitting m = false → (runQueued now m).1.1 = Completed →
     dead t (ctx (runQueued now m).1.2) ∧
     (times t (runQueued now m).2 ≤ 1)%nat) ∧
  (∀ a ops,
     a ∈ entries (ctx m) → ticket a = t → live a → quitting m = false →
     (∀ b, b ∈ entries (ctx m) → ticket b ≠ t → ∀ w, bystander t (action b w)) →
     Forall (bystander_op t) ops →
     (times t (exec ops m).2 = 0%nat →
        a ∈ entries (ctx (exec ops m).1) ∧
        a ∈ queued (doQueuePending (exec ops m).1).2) ∧
     (∀ now ops', triggerTime a ≤ now →
        times t (exec (ops ++ [OpQueuePending; OpRunQueued now] ++ ops') m).2
          = 1%nat) ∧
     (∀ now cs ops', triggerTime a ≤ now →
        times t (exec (ops ++ [OpRun (tick now :: cs)] ++ ops') m).2 = 1%nat)).
Proof.
  intros Hwf Honce.
  assert (∀ ops m', wf (ctx m') → once t (ctx m') →
            (times t (exec ops m').2 ≤ 1)%nat) as Hmost.
  { intros ops m' Hwf' Honce'.
    destruct (exec_inv (once_history t) (once_history_stable t)
                (once_history_invoke t) ops [] m'
                (conj (conj Hwf' Honce') (or_introl eq_refl))) as [_ Hcount].
    cbn [app] in Hcount. destruct Hcount as [Hc | [Hc _]]; lia. }
  split_and!.
  - intros ops. by apply Hmost.
  - intros Hr ops. apply times_absent.
    by apply (cancelled_never_invoked t m Hwf Hr).
  - intros n i now a Ha Hta Hl Hdue.
    destruct (iteration_fires t n i now m a Hwf Honce Ha Hta Hl Hdue)
      as [Hone Hdead].
    split_and!; [done | done | by apply dead_destroyed |].
    intros ops. by apply times_absent, dead_forever.
  - intros i now a Ha Hta Hl Hdue Hq Hend. split.
    + apply (pass_settles t i a now (length (queued m)) 0%nat m);
        try done.
      * apply lookup_lt_Some in Ha. lia.
      * intros Hq'. congruence.
      * exists a. split; [done | apply marks_refl].
    + pose proof (Hmost [OpRunQueued now] m Hwf Honce) as H.
      cbn in H. destruct (runQueued now m) as [[e m'] fired].
      by rewrite app_nil_r in H.
  - intros a ops Ha <- Hl Hq Hby Hops.
    assert (waiting a m) as Hm by (by split_and!).
    assert (never_repeats (action a)) as Hnr by (by apply (proj2 Honce a)).
    pose proof (exec_waiting a ops m Hm Hl Hnr Hops) as Hops'.
    assert (∀ tail,
              (∀ m1, waiting a m1 → times (ticket a) (exec tail m1).2 = 1%nat) →
              ∀ ops', times (ticket a) (exec (ops ++ tail ++ ops') m).2 = 1%nat)
      as Hfires.
    { intros tail Htail ops'.
      pose proof (Hmost (ops ++ tail ++ ops') m Hwf Honce) as Hle.
      rewrite exec_app in Hle |- *.
      destruct (exec ops m) as [m1 fired1]; cbn [fst snd] in *.
      specialize (Htail m1). rewrite exec_app in Hle |- *.
      destruct (exec tail m1) as [m2 fired2]; cbn [fst snd] in *.
      destruct (exec ops' m2) as [m3 fired3]; cbn [fst snd] in *.
      rewrite !times_app in Hle |- *.
      destruct Hops' as [[_ Hm1] | [Hone _]]; [specialize (Htail Hm1) |]; lia. }
    split_and!.
    + intros Hzero. destruct Hops' as [[_ Hm1] | [Hone _]]; [| lia].
      split; [by destruct Hm1 as (_ & _ & ? & _) |].
      by apply waiting_doQueuePending.
    + intros now ops' Hdue. apply Hfires.
      intros m1 Hm1. by apply waiting_fires_pass.
    + intros now cs ops' Hdue. apply Hfires.
      intros m1 Hm1. by apply waiting_fires_run.
Qed.

(** * Further properties *)

(** ** What a pass invokes *)

Lemma rest_of_evolves q0 i m m' :
  evolves marks (ctx m) (ctx m') → rest_of q0 i m → rest_of q0 i m'.
Proof.
  intros (_ & Hq & _) Hrest j a1 Hij Ha1.
  destruct (Forall2_lookup_r _ _ _ _ _ Hq Ha1) as (a' & Ha' & Hm').
  destruct (Hrest j a' Hij Ha') as (a & Ha & Hm).
  exists a. split; [done |]. by eapply marks_trans.
Qed.

Lemma rest_of_api_stable q0 i : api_stable (rest_of q0 i).
Proof.
  split; intros; try done.
  - eapply rest_of_evolves; [| eassumption]. apply doCancel_evolves.
  - eapply rest_of_evolves; [| eassumption]. apply cancelAll_evolves.
  - eapply rest_of_evolves; [| eassumption]. apply cancelAll_evolves.
Qed.

Lemma rest_of_next q0 i now repeat m :
  rest_of q0 i m →
  rest_of q0 (S i) (updateQueued i (reschedule now repeat) m).
Proof.
  intros Hrest j a' Hij Ha'. apply (Hrest j a'); [lia |].
  unfold updateQueued, queued in Ha'. cbn in Ha'.
  by rewrite list_lookup_alter_ne in Ha' by lia.
Qed.

Lemma rest_of_skip q0 i m : rest_of q0 i m → rest_of q0 (S i) m.
Proof. intros Hrest j a' Hij. apply Hrest. lia. Qed.

Lemma runQueuedFrom_due q0 now n : ∀ i m,
  rest_of q0 i m →
  Forall (λ t, ∃ a, a ∈ q0 ∧ ticket a = t ∧ live a ∧ triggerTime a ≤ now)
    (runQueuedFrom n i now m).2.
Proof.
  induction n as [|n IH]; intros i m Hrest; cbn [runQueuedFrom]; [constructor |].
  destruct (queued m !! i) as [a'|] eqn:Ha'; [| constructor].
  destruct (isCancelled a') eqn:Hc'; [by apply IH, rest_of_skip |].
  destruct (Z.leb_spec (triggerTime a') now) as [Hdue |];
    [| by apply IH, rest_of_skip].
  destruct (Hrest i a' (le_n i) Ha') as (a & Ha & [(Ht & _ & _ & _ & Hmono) Htr]).
  assert (∃ a0, a0 ∈ q0 ∧ ticket a0 = ticket a' ∧ live a0 ∧ triggerTime a0 ≤ now)
    as Hhead.
  { exists a. split_and!; [by eapply list_elem_of_lookup_2 | done | | lia].
    unfold live. destruct (isCancelled a); [| done].
    specialize (Hmono eq_refl). congruence. }
  pose proof (runBody_stable _ (rest_of_api_stable q0 i)
                (action a' (world m)) m Hrest) as Hrest1.
  unfold afterBody.
  destruct (runBody (action a' (world m)) m) as [[repeat|] m1]; cbn in *.
  - destruct (quitting _); cbn; [by repeat constructor |].
    specialize (IH (S i) _ (rest_of_next q0 i now repeat m1 Hrest1)).
    destruct (runQueuedFrom n (S i) now _) as [[e m'] fired]; cbn in *.
    by constructor.
  - by repeat constructor.
Qed.

(** X1.  Every body a pass invokes belongs to an entry that was in the
    queued sequence, not cancelled and due when the pass began: no action
    runs before its trigger time, none after it was cancelled, and none
    that is only pending. *)
Theorem pass_invokes_only_due_live (now : Timepoint) (m : Machine) :
  Forall (λ t, ∃ a, a ∈ queued m ∧ ticket a = t ∧ live a ∧ triggerTime a ≤ now)
    (runQueued now m).2.
Proof.
  apply runQueuedFrom_due. intros j a' _ Ha'.
  exists a'. split; [done | apply marks_refl].
Qed.

(** X2.  On a registry whose tickets identify its entries, a pass invokes
    no body twice: a repeating action that is several intervals late fires
    once per pass. *)
Theorem pass_invokes_each_once (now : Timepoint) (m : Machine) :
  wf (ctx m) → NoDup (runQueued now m).2.
Proof.
  intros [Hu _ _]. unfold entries in Hu. rewrite fmap_app in Hu.
  apply NoDup_app in Hu as (Hq & _ & _).
  eapply sublist_NoDup; [exact Hq |].
  apply (runQueuedFrom_order (length (queued m)) 0 now m).
Qed.

Lemma runQueuedFrom_idle now n : ∀ i m,
  (∀ j a, (i ≤ j)%nat → queued m !! j = Some a →
     isCancelled a = true ∨ now < triggerTime a) →
  runQueuedFrom n i now m = (Completed, m, []).
Proof.
  induction n as [|n IH]; intros i m Hidle; cbn [runQueuedFrom]; [done |].
  destruct (queued m !! i) as [a|] eqn:Ha; [| done].
  assert (runQueuedFrom n (S i) now m = (Completed, m, [])) as Hnext.
  { apply IH. intros j b Hij. apply Hidle. lia. }
  destruct (Hidle i a (le_n i) Ha) as [-> | Hlate]; [done |].
  destruct (isCancelled a); [done |].
  by destruct (Z.leb_spec (triggerTime a) now); [lia |].
Qed.

(** X3.  A pass that finds every queued entry cancelled or not yet due,
    the empty sequence included, invokes nothing and leaves the looper as
    it was. *)
Theorem pass_idle (now : Timepoint) (m : Machine) :
  (∀ a, a ∈ queued m → isCancelled a = true ∨ now < triggerTime a) →
  runQueued now m = (Completed, m, []).
Proof.
  intros Hidle. apply runQueuedFrom_idle. intros j a _ Ha.
  by eapply Hidle, list_elem_of_lookup_2.
Qed.

(** X4.  When the body of a due entry throws, the pass ends there: no
    later entry is visited, the entry that threw is neither rescheduled
    nor marked cancelled by the loop, and the exception leaves [run]
    without another cycle and without the final reconciliation. *)
Theorem body_exception_unwinds (n i : nat) (now : Timepoint) (m m1 : Machine)
    (a : ManagedAction) :
  queued m !! i = Some a → live a → triggerTime a ≤ now →
  runBody (action a (world m)) m = (Thrown, m1) →
  runQueuedFrom (S n) i now m = (Unwinding, m1, [ticket a]) ∧
  holds i a m1 ∧
  ∀ cs, endOfPass (runCycles cs) (runQueuedFrom (S n) i now m)
        = (Escaped, m1, [ticket a]).
Proof.
  intros Ha Hl Hdue Hbody.
  assert (runQueuedFrom (S n) i now m = (Unwinding, m1, [ticket a])) as Hpass.
  { by rewrite (runQueuedFrom_invoke n i now m a Ha Hl Hdue), Hbody. }
  split_and!; [done | | by rewrite Hpass].
  change m1 with (Thrown, m1).2. rewrite <- Hbody.
  apply runBody_stable; [apply holds_api_stable |].
  exists a. split; [done | apply marks_refl].
Qed.

(** ** More on cancellation *)

Lemma tryCancelQueued_in_miss t l :
  (∀ a, a ∈ l → ticket a = t → isCancelled a = true) →
  tryCancelQueued_in t l = (false, l).
Proof.
  induction l as [|a l IH]; intros Hall; simpl; [done |].
  destruct (Z.eqb_spec (ticket a) t) as [Heq | Hne].
  - by rewrite (Hall a (list_elem_of_here _ _) Heq).
  - rewrite IH; [done |]. intros b Hb. apply Hall. by right.
Qed.

Lemma tryCancelPending_in_miss t l :
  t ∉ ticket <$> l → tryCancelPending_in t l = (false, l).
Proof.
  induction l as [|a l IH]; simpl; [done |].
  intros [Hne Hnin]%not_elem_of_cons.
  destruct (Z.eqb_spec (ticket a) t) as [Heq | _]; [done |].
  by rewrite IH.
Qed.

Lemma tryCancelPending_false t c :
  (tryCancelPending t c).1 = false → (tryCancelPending t c).2 = c.
Proof.
  destruct (tryCancelPending_fields t c) as (Hr & _). rewrite Hr.
  intros Hmiss. unfold tryCancelPending.
  rewrite tryCancelPending_in_miss; [by destruct c |].
  intros Hin%tryCancelPending_in_found. congruence.
Qed.

Lemma cancel_dead_noop t l : dead t (mContext l) → cancel t l = (false, l).
Proof.
  intros (Hq & Hp & _). unfold cancel, tryCancelQueued, tryCancelPending.
  rewrite (tryCancelQueued_in_miss _ _ Hq). cbn.
  rewrite (tryCancelPending_in_miss _ _ Hp).
  by destruct l as [[] ?].
Qed.

(** X5.  A [cancel] that returns false has changed nothing. *)
Theorem cancel_false_noop (t : Ticket) (l : Looper) :
  (cancel t l).1 = false → (cancel t l).2 = l.
Proof.
  unfold cancel.
  pose proof (tryCancelQueued_false t (mContext l)) as Hq.
  destruct (tryCancelQueued t (mContext l)) as [[] c1]; [done |].
  cbn in Hq. rewrite (Hq eq_refl).
  pose proof (tryCancelPending_false t (mContext l)) as Hp.
  destruct (tryCancelPending t (mContext l)) as [[] c2]; [done |].
  cbn in Hp. rewrite (Hp eq_refl). intros _. by destruct l.
Qed.

(** X6.  On a registry whose tickets identify its entries, a ticket can be
    cancelled once: after [cancel(t)] has returned true, [cancel(t)]
    returns false and changes nothing. *)
Theorem cancel_twice (t : Ticket) (l : Looper) :
  wf (mContext l) → (cancel t l).1 = true →
  cancel t (cancel t l).2 = (false, (cancel t l).2).
Proof. intros Hwf Hr. by apply cancel_dead_noop, cancel_dead. Qed.

(** X7.  [cancel(t)] touches no entry that carries another ticket: the
    entries with other tickets are the same, in the same order and state,
    in both sequences; the counter and the quit flag are unchanged. *)
Theorem cancel_spares_others (t : Ticket) (l : Looper) :
  filter (λ a, ticket a ≠ t) (mQueuedActions (mContext (cancel t l).2))
    = filter (λ a, ticket a ≠ t) (mQueuedActions (mContext l)) ∧
  filter (λ a, ticket a ≠ t) (mPendingActions (mContext (cancel t l).2))
    = filter (λ a, ticket a ≠ t) (mPendingActions (mContext l)) ∧
  mTicketCounter (mContext (cancel t l).2) = mTicketCounter (mContext l) ∧
  mQuit (cancel t l).2 = mQuit l.
Proof.
  destruct (cancel_context t l) as (-> & -> & _).
  destruct (tryCancelQueued_fields t (mContext l)) as (_ & Hq1 & Hp1 & Hc1).
  destruct (tryCancelPending_fields t (tryCancelQueued t (mContext l)).2)
    as (_ & Hq2 & Hp2 & Hc2).
  destruct (tryCancelQueued t (mContext l)).1.
  - rewrite Hq1, Hp1, Hc1. by rewrite tryCancelQueued_in_others.
  - rewrite Hq2, Hp2, Hc2, Hq1, Hp1, Hc1.
    by rewrite tryCancelQueued_in_others, tryCancelPending_in_others.
Qed.

Lemma tryCancelPending_in_last t l a :
  t ∉ ticket <$> l → ticket a = t →
  tryCancelPending_in t (l ++ [a]) = (true, l).
Proof.
  intros Hnin Hta. induction l as [|b l IH]; simpl.
  - by rewrite (proj2 (Z.eqb_eq _ _) Hta).
  - apply not_elem_of_cons in Hnin as [Hne Hnin].
    destruct (Z.eqb_spec (ticket b) t) as [Heq | _]; [done |].
    by rewrite IH.
Qed.

(** X8.  Scheduling an action and cancelling the ticket obtained gives the
    registry back: [cancel] returns true, both sequences and the quit flag
    are as before, and only the ticket counter has advanced. *)
Theorem schedule_cancel_roundtrip (body : World → Prog) (trigger : Timepoint)
    (ival : Duration) (cu : bool) (l : Looper) :
  wf (mContext l) →
  cancel (scheduleAt body trigger ival cu l).1 (scheduleAt body trigger ival cu l).2
    = (true,
       {| mContext :=
            {| mTicketCounter := mTicketCounter (mContext l) + 1;
               mQueuedActions := mQueuedActions (mContext l);
               mPendingActions := mPendingActions (mContext l) |};
          mQuit := mQuit l |}).
Proof.
  intros [Hu Hi _]. unfold entries in *. rewrite fmap_app in Hi.
  assert (∀ t, mTicketCounter (mContext l) < t →
            t ∉ ticket <$> mQueuedActions (mContext l)) as Hq.
  { intros t Ht Hin. specialize (Hi t). rewrite elem_of_app in Hi.
    specialize (Hi (or_introl Hin)). lia. }
  assert (∀ t, mTicketCounter (mContext l) < t →
            t ∉ ticket <$> mPendingActions (mContext l)) as Hp.
  { intros t Ht Hin. specialize (Hi t). rewrite elem_of_app in Hi.
    specialize (Hi (or_intror Hin)). lia. }
  unfold scheduleAt, scheduleImpl, cancel, tryCancelQueued, tryCancelPending.
  cbn.
  rewrite tryCancelQueued_in_miss.
  - cbn. rewrite tryCancelPending_in_last; [done | | done].
    apply Hp. lia.
  - intros a Ha Hta. exfalso.
    apply (Hq (mTicketCounter (mContext l) + 1)); [lia |].
    rewrite <- Hta. by apply list_elem_of_fmap_2.
Qed.

Lemma doCancelAll_dead m t : t ≤ counter m → dead t (ctx (doCancelAll m)).
Proof.
  intros Ht. unfold dead. cbn. split_and!; [| | done].
  - intros a (a0 & -> & _)%list_elem_of_fmap_1. done.
  - intros H. by apply elem_of_nil in H.
Qed.

(** X9.  [cancelAll()] leaves the quit flag alone, is idempotent, makes
    [cancel] return false for every ticket, and no action scheduled before
    it is invoked in any history that follows. *)
Theorem cancelAll_cancels_all (m : Machine) :
  quitting (doCancelAll m) = quitting m ∧
  cancelAll (cancelAll (looper m)) = cancelAll (looper m) ∧
  (∀ t, cancel t (cancelAll (looper m)) = (false, cancelAll (looper m))) ∧
  (∀ ops, Forall (λ t, counter m < t) (exec ops (doCancelAll m)).2).
Proof.
  split_and!.
  - done.
  - unfold cancelAll, with_context, cancelAllPending, cancelAllQueued. cbn.
    f_equal. f_equal. rewrite <- list_fmap_compose. by apply list_fmap_ext.
  - intros t. unfold cancel, tryCancelQueued, tryCancelPending. cbn.
    rewrite tryCancelQueued_in_miss; [done |].
    by intros a (a0 & -> & _)%list_elem_of_fmap_1.
  - intros ops. apply Forall_forall. intros t Hin.
    destruct (decide (counter m < t)) as [| Hle]; [done |].
    exfalso. eapply (dead_forever t ops (doCancelAll m)); [| exact Hin].
    apply doCancelAll_dead. lia.
Qed.

(** ** The cycles of [run] *)

Lemma filter_live_cancelled l : filter live (set_isCancelled true <$> l) = [].
Proof.
  induction l as [|a l IH]; [done |].
  rewrite fmap_cons, filter_cons_False; [done |]. by unfold live.
Qed.

Lemma filter_live_none l :
  Forall (λ a, isCancelled a = true) l → filter live l = [].
Proof.
  induction 1 as [|a l Ha _ IH]; [done |].
  rewrite filter_cons_False; [done |]. unfold live. congruence.
Qed.

(** X10.  Once a body has called [quit()], the [queuePending] with which
    [run] ends deletes every action that was outstanding at the call:
    whatever the body does afterwards, the entries left when [run] has
    returned carry tickets issued after the call, and none of them has the
    ticket of an entry of the registry at the call, tickets identifying
    entries.  When the body returns right after [quit()], [run] returns
    with both sequences empty.  A reconciliation that follows [quit()]
    directly leaves both sequences empty and returns [Timepoint::max()]. *)
Theorem quit_then_flush_empty (m : Machine) :
  (∀ k n i now cs,
     (resumeRun k n i now cs (doQuit m)).1.1 = Stopped →
     (∀ a, a ∈ entries (ctx (resumeRun k n i now cs (doQuit m)).1.2) →
           counter m < ticket a) ∧
     (wf (ctx m) → ∀ a, a ∈ entries (ctx m) →
        ticket a ∉
          ticket <$> entries (ctx (resumeRun k n i now cs (doQuit m)).1.2))) ∧
  (∀ repeat w n i now cs,
     (resumeRun (Ret repeat w) n i now cs (doQuit m)).1.1 = Stopped ∧
     entries (ctx (resumeRun (Ret repeat w) n i now cs (doQuit m)).1.2) = []) ∧
  entries (ctx (doQueuePending (doQuit m)).2) = [] ∧
  (doQueuePending (doQuit m)).1 = Timepoint_max.
Proof.
  assert (∀ k n i now cs,
     (resumeRun k n i now cs (doQuit m)).1.1 = Stopped →
     ∀ a, a ∈ entries (ctx (resumeRun k n i now cs (doQuit m)).1.2) →
          counter m < ticket a) as Hleft.
  { intros k n i now cs. unfold resumeRun, resumeQueued, afterBody.
    pose proof (runBody_stable _ quitting_sticky k (doQuit m) eq_refl) as Hq.
    assert (∀ t, t ≤ counter m → dead t (ctx (runBody k (doQuit m)).2)) as Hd.
    { intros t Ht.
      apply (runBody_stable _ (st_api _ (invariant_stable _ (dead_invariant t)))).
      by apply doQuit_dead. }
    destruct (runBody k (doQuit m)) as [[repeat|] m1]; cbn [fst snd] in *;
      [| done].
    set (m2 := updateQueued i (reschedule now repeat) m1).
    assert (quitting m2 = true) as Hq2 by done.
    rewrite Hq2. cbn [endOfPass]. rewrite Hq2. cbn [fst snd].
    intros _ a Ha.
    destruct (decide (counter m < ticket a)) as [| Hle]; [done |]. exfalso.
    assert (dead (ticket a) (ctx m2)) as (Hdq & Hdp & _).
    { apply (st_update _ (invariant_stable _ (dead_invariant (ticket a)))).
      apply Hd. lia. }
    unfold entries, doQueuePending in Ha. cbn in Ha.
    rewrite requeue_spec in Ha.
    apply elem_of_app in Ha as [Ha | Ha]; [| by apply elem_of_nil in Ha].
    apply elem_of_app in Ha as [Ha | Ha].
    - apply Hdp. by apply list_elem_of_fmap_2.
    - apply list_elem_of_filter in Ha as [Hl Ha].
      specialize (Hdq a Ha eq_refl). unfold live in Hl. congruence. }
  split_and!; [| |
               unfold entries, doQueuePending, doQuit; cbn;
               by rewrite requeue_spec, filter_live_cancelled ..].
  - intros k n i now cs Hstop. split; [by apply Hleft |].
    intros Hwf a Ha (a' & Heq & Ha')%list_elem_of_fmap_1.
    specialize (Hleft k n i now cs Hstop a' Ha').
    assert (ticket a ≤ counter m); [| lia].
    apply (wf_issued _ Hwf). by apply list_elem_of_fmap_2.
  - intros repeat w n i now cs.
    unfold resumeRun, resumeQueued, afterBody. cbn [runBody].
    set (m2 := updateQueued i (reschedule now repeat) (with_world w (doQuit m))).
    assert (quitting m2 = true) as Hq2 by done.
    rewrite Hq2. cbn [endOfPass]. rewrite Hq2. cbn [fst snd].
    split; [done |].
    unfold entries, doQueuePending. cbn. rewrite requeue_spec. cbn.
    rewrite app_nil_r. apply filter_live_none, Forall_alter.
    + apply Forall_fmap, Forall_forall. by intros a _.
    + intros a _ Ha.
      pose proof (ages_reschedule now repeat a) as (_ & _ & _ & _ & H).
      by apply H.
Qed.

Lemma wf_arrive rs m : wf (ctx m) → wf (ctx (arrive rs m)).
Proof.
  unfold arrive. revert m. induction rs as [|r rs IH]; intros m Hm; cbn; [done |].
  apply IH. by apply (st_schedule _ (st_api _ (invariant_stable _ wf_invariant))).
Qed.

Lemma wf_waitLoop ws m : wf (ctx m) → wf (ctx (waitLoop ws m).2).
Proof.
  revert m. induction ws as [|[now rs] ws IH]; intros m Hm; cbn; [done |].
  pose proof (st_queuePending _ (invariant_stable _ wf_invariant) m Hm) as H1.
  destruct (doQueuePending m) as [sleepUntil m1]; cbn in *.
  destruct (sleepUntil <=? now); cbn; [done |].
  by apply IH, wf_arrive.
Qed.

Lemma wf_pass n i now m : wf (ctx m) → wf (ctx (runQueuedFrom n i now m).1.2).
Proof.
  intros Hm.
  apply (runQueuedFrom_inv (λ _ m, wf (ctx m))) with (fired := []); [| done].
  intros _ m' i' a now' Hm' _ _.
  pose proof (runBody_stable _ (st_api _ (invariant_stable _ wf_invariant))
                (action a (world m')) m' Hm') as H1.
  destruct (runBody (action a (world m')) m') as [[repeat|] m1]; cbn in *;
    [| done].
  by apply (st_update _ (invariant_stable _ wf_invariant)).
Qed.

Lemma runCycles_stopped cs : ∀ m,
  wf (ctx m) → quitting m = false → (runCycles cs m).1.1 = Stopped →
  quitting (runCycles cs m).1.2 = true ∧
  pending (runCycles cs m).1.2 = [] ∧
  Forall live (queued (runCycles cs m).1.2).
Proof.
  induction cs as [|c cs IH]; intros m Hwf Hq; cbn [runCycles]; [done |].
  pose proof (wf_waitLoop (cyWait c) _ (wf_arrive (cyBefore c) m Hwf)) as Hwf1.
  pose proof (quitting_waitLoop (cyWait c) (arrive (cyBefore c) m)) as Hq1.
  rewrite quitting_arrive, Hq in Hq1.
  destruct (waitLoop (cyWait c) (arrive (cyBefore c) m)) as [[|] m1];
    cbn [fst snd] in *; [| done].
  rewrite Hq1. cbn [negb].
  assert (wf (ctx (check true m1))) as Hwf2 by done.
  pose proof (wf_pass (length (queued (check true m1))) 0 (cyNow c) _ Hwf2)
    as Hwf3.
  unfold runQueued.
  destruct (runQueuedFrom _ 0 (cyNow c) (check true m1)) as [[[|] m3] fired];
    cbn [fst snd endOfPass] in *; [| done].
  destruct (quitting m3) eqn:Hq3; cbn [fst snd].
  - intros _. split_and!; [done | done |].
    unfold doQueuePending, queued. cbn. rewrite requeue_spec.
    destruct Hwf3 as [_ _ Hl]. apply Forall_app. split; [done |].
    apply Forall_forall. by intros a [? _]%list_elem_of_filter.
  - specialize (IH m3 Hwf3 Hq3).
    by destruct (runCycles cs m3) as [[o m'] fired'].
Qed.

(** X11.  When [run] has returned, on a registry whose tickets identify
    its entries, the quit flag is set, the pending sequence is empty and
    no cancelled entry is left in the queued sequence. *)
Theorem run_stopped_clean (cs : list Cycle) (m : Machine) :
  wf (ctx m) → (run cs m).1.1 = Stopped →
  quitting (run cs m).1.2 = true ∧
  pending (run cs m).1.2 = [] ∧
  Forall live (queued (run cs m).1.2).
Proof. intros Hwf. by apply runCycles_stopped. Qed.

(** X12.  The wait loop lets a pass begin only with the pending sequence
    empty and at a clock reading that has reached the trigger time of a
    queued entry (or [Timepoint::max()]). *)
Theorem wait_ends_when_due (ws : list (Timepoint * list Request)) (m : Machine) :
  (waitLoop ws m).1 = true →
  pending (waitLoop ws m).2 = [] ∧
  ∃ now, now ∈ ws.*1 ∧
    (Timepoint_max ≤ now ∨
     ∃ a, a ∈ queued (waitLoop ws m).2 ∧ triggerTime a ≤ now).
Proof.
  revert m. induction ws as [|[now rs] ws IH]; intros m; cbn [waitLoop];
    [done |].
  unfold doQueuePending. cbn [queuePending].
  set (q := requeue (mQueuedActions (ctx m)) (mPendingActions (ctx m))).
  destruct (Z.leb_spec (wakeTime q) now) as [Hdue | _]; cbn [fst snd].
  - intros _. split; [done |]. exists now. split; [cbn; left |].
    destruct (wakeFrom_spec q Timepoint_max) as (_ & _ & [Heq | Hin]).
    + left. unfold wakeTime in Hdue. lia.
    + right. apply list_elem_of_fmap_1 in Hin as (a & Ha & Hin).
      exists a. split; [done |]. unfold wakeTime in Hdue. lia.
  - intros Hdue. destruct (IH _ Hdue) as (Hp & now' & Hin & Hnow).
    split; [done |]. exists now'. split; [cbn; by right | done].
Qed.

Lemma waitLoop_empty ws : ∀ m,
  entries (ctx m) = [] →
  Forall (λ w, w.1 < Timepoint_max ∧ w.2 = []) ws →
  (waitLoop ws m).1 = false.
Proof.
  induction ws as [|[now rs] ws IH]; intros m Hempty Hws; cbn [waitLoop];
    [done |].
  apply Forall_cons in Hws as [[Hnow Hrs] Hws]. cbn in Hnow, Hrs. subst rs.
  unfold entries in Hempty. apply app_eq_nil in Hempty as [Hq Hp].
  unfold doQueuePending. cbn [queuePending]. rewrite Hq, Hp. cbn.
  destruct (Z.leb_spec Timepoint_max now); [lia |].
  apply IH; [| done]. done.
Qed.

(** X13.  A looper that holds no action, and to which none is given,
    never begins a pass and never returns from [run] as long as the clock
    stays below [Timepoint::max()]. *)
Theorem empty_looper_waits (cs : list Cycle) (m : Machine) :
  entries (ctx m) = [] →
  Forall (λ c, cyBefore c = [] ∧
               Forall (λ w, w.1 < Timepoint_max ∧ w.2 = []) (cyWait c)) cs →
  (run cs m).1.1 = Running ∧ (run cs m).2 = [].
Proof.
  intros Hempty Hcs. unfold run. destruct cs as [|c cs]; [done |].
  apply Forall_cons in Hcs as [[Hb Hw] _]. cbn [runCycles]. rewrite Hb. cbn.
  pose proof (waitLoop_empty (cyWait c)
                (with_looper {| mContext := ctx m; mQuit := false |} m)
                Hempty Hw) as Hwait.
  by destruct (waitLoop (cyWait c) _) as [[|] m1].
Qed.

(** X14.  [hasPending] answers whether an action waits for the next
    reconciliation: true after [scheduleImpl], false after [queuePending]
    and after [cancelAllPending], and [tryCancelPending] can only turn it
    from true to false. *)
Theorem hasPending_tracks (c : LoopContext) :
  (hasPending c = true ↔ mPendingActions c ≠ []) ∧
  (∀ body trigger ival cu,
     hasPending (scheduleImpl body trigger ival cu c).2 = true) ∧
  hasPending (queuePending c).2 = false ∧
  hasPending (cancelAllPending c) = false ∧
  (∀ t, hasPending (tryCancelPending t c).2 = true → hasPending c = true).
Proof.
  split_and!.
  - unfold hasPending. by destruct (mPendingActions c).
  - intros body trigger ival cu. unfold hasPending. cbn.
    by destruct (mPendingActions c).
  - done.
  - done.
  - intros t. destruct (tryCancelPending_fields t c) as (_ & _ & Hp & _).
    unfold hasPending. rewrite Hp.
    pose proof (tryCancelPending_in_sublist t (mPendingActions c)) as Hsub.
    destruct (mPendingActions c); [| done].
    apply sublist_nil_r in Hsub. by rewrite Hsub.
Qed.

(** ** A repeating action that is late *)

Lemma wakeTime_single a :
  wakeTime [a] ≤ triggerTime a ∧
  (wakeTime [a] = triggerTime a ∨ wakeTime [a] = Timepoint_max).
Proof.
  unfold wakeTime, wakeFrom. cbn.
  destruct (Z.ltb_spec (triggerTime a) Timepoint_max); lia.
Qed.

Lemma alone_doQueuePending a m :
  alone a m → live a →
  (doQueuePending m).1 = wakeTime [a] ∧ alone a (doQueuePending m).2.
Proof.
  intros (Hq & Hp & Hquit) Hl.
  unfold alone, doQueuePending, queued, pending, quitting in *. cbn.
  rewrite Hq, Hp, requeue_spec, filter_cons_True by done. by cbn.
Qed.

Lemma alone_pass a now m :
  alone a m → live a → plain_repeater (action a) → triggerTime a ≤ now →
  ∃ m2, runQueued now m = (Completed, m2, [ticket a]) ∧
        alone (reschedule now true a) m2.
Proof.
  intros (Hq & Hp & Hquit) Hl Hbody Hdue.
  destruct (Hbody (world m)) as [w' Hw'].
  exists (updateQueued 0 (reschedule now true) (with_world w' m)). split.
  - unfold runQueued. rewrite Hq. cbn [length].
    rewrite (runQueuedFrom_invoke 0 0 now m a); [| by rewrite Hq | done | done].
    rewrite Hw'. cbn [runBody afterBody].
    change (quitting (updateQueued 0 (reschedule now true) (with_world w' m)))
      with (quitting m).
    by rewrite Hquit.
  - unfold alone, updateQueued, queued, pending, quitting in *. cbn.
    change (ctx (with_world w' m)) with (ctx m).
    change (looper (with_world w' m)) with (looper m).
    by rewrite Hq, Hp, Hquit.
Qed.

Lemma cycle_fires a now m :
  alone a m → live a → plain_repeater (action a) → triggerTime a ≤ now →
  ∃ m1, alone (reschedule now true a) m1 ∧
    ∀ cs, runCycles (tick now :: cs) m =
          (let '(o, m', fired) := runCycles cs m1 in (o, m', ticket a :: fired)).
Proof.
  intros Halone Hl Hbody Hdue.
  destruct (alone_doQueuePending a m Halone Hl) as [Hwake Halone1].
  destruct (wakeTime_single a) as [Hle _].
  assert (alone a (check true (doQueuePending m).2)) as Halone2 by done.
  destruct (alone_pass a now _ Halone2 Hl Hbody Hdue) as (m2 & Hpass & Halone3).
  exists m2. split; [done |]. intros cs.
  cbn [runCycles tick cyBefore cyWait cyNow arrive fold_left waitLoop].
  destruct (doQueuePending m) as [wake m1]; cbn [fst snd] in *. subst wake.
  destruct (Z.leb_spec (wakeTime [a]) now) as [_ |]; [| lia].
  destruct Halone1 as (_ & _ & ->). cbn [negb]. rewrite Hpass.
  cbn [endOfPass]. destruct Halone3 as (_ & _ & ->).
  by destruct (runCycles cs m2) as [[o m'] fired].
Qed.

Lemma cycle_waits a now m cs :
  alone a m → live a → now < triggerTime a → now < Timepoint_max →
  (runCycles (tick now :: cs) m).1.1 = Running ∧
  (runCycles (tick now :: cs) m).2 = [] ∧
  queued (runCycles (tick now :: cs) m).1.2 = [a].
Proof.
  intros Halone Hl Hlate Hmax.
  destruct (alone_doQueuePending a m Halone Hl) as [Hwake Halone1].
  destruct (wakeTime_single a) as [_ Heq].
  cbn [runCycles tick cyBefore cyWait cyNow arrive fold_left waitLoop].
  destruct (doQueuePending m) as [wake m1]; cbn [fst snd] in *. subst wake.
  destruct (Z.leb_spec (wakeTime [a]) now) as [|_]; [lia |].
  cbn. by destruct Halone1 as (-> & _ & _).
Qed.

Lemma catch_up_cycles now j : ∀ a m cs,
  alone a m → live a → catchUp a = true → plain_repeater (action a) →
  0 ≤ interval a →
  triggerTime a + Z.of_nat j * interval a ≤ now →
  now < triggerTime a + (Z.of_nat j + 1) * interval a →
  representable (triggerTime a) →
  representable (triggerTime a + (Z.of_nat j + 1) * interval a) →
  (runCycles (replicate (S (S j)) (tick now) ++ cs) m).1.1 = Running ∧
  (runCycles (replicate (S (S j)) (tick now) ++ cs) m).2
    = replicate (S j) (ticket a) ∧
  ∃ a', queued (runCycles (replicate (S (S j)) (tick now) ++ cs) m).1.2 = [a'] ∧
        triggerTime a' = triggerTime a + (Z.of_nat j + 1) * interval a.
Proof.
  induction j as [|j IH];
    intros a m cs Halone Hl Hcu Hbody Hival Hlow Hhigh Hfrom Hto.
  - destruct (cycle_fires a now m Halone Hl Hbody ltac:(lia)) as (m1 & H1 & Hrun).
    cbn [replicate app]. rewrite Hrun.
    unfold reschedule in H1. rewrite Hcu in H1.
    rewrite stored_representable in H1 by (unfold representable in *; lia).
    destruct (cycle_waits _ now m1 cs H1 Hl ltac:(cbn; lia)
                ltac:(unfold representable in *; lia))
      as (Ho & Hf & Hq).
    destruct (runCycles (tick now :: cs) m1) as [[o m'] fired]; cbn in *.
    subst. split_and!; [done | done |]. eexists. split; [done |]. cbn. lia.
  - destruct (cycle_fires a now m Halone Hl Hbody ltac:(nia)) as (m1 & H1 & Hrun).
    change (replicate (S (S (S j))) (tick now) ++ cs)
      with (tick now :: (replicate (S (S j)) (tick now) ++ cs)).
    rewrite Hrun. unfold reschedule in H1. rewrite Hcu in H1.
    rewrite stored_representable in H1 by (unfold representable in *; nia).
    destruct (IH _ m1 cs H1 Hl Hcu Hbody Hival ltac:(cbn; lia) ltac:(cbn; lia)
                ltac:(unfold representable in *; cbn; nia)
                ltac:(unfold representable in *; cbn; lia))
      as (Ho & Hf & a' & Hq & Ht).
    destruct (runCycles (replicate (S (S j)) (tick now) ++ cs) m1)
      as [[o m'] fired]; cbn [fst snd] in *.
    split_and!; [done | by rewrite Hf |].
    exists a'. split; [done |]. rewrite Ht. cbn. lia.
Qed.

(** X15.  Catching up.  A looper runs a single repeating action with
    [catchUp], whose body only asks to be repeated, and wakes [j] whole
    intervals after the trigger time, the first multiple of the interval
    after the clock reading being a representable [Timepoint].  Cycles
    that follow one another at that clock reading invoke the body [j + 1]
    times, once per cycle, and then the loop waits, the trigger time being
    that multiple. *)
Theorem catch_up_fires_missed (now : Timepoint) (j : nat) (a : ManagedAction)
    (m : Machine) (cs : list Cycle) :
  alone a m → live a → catchUp a = true → plain_repeater (action a) →
  0 ≤ interval a →
  triggerTime a + Z.of_nat j * interval a ≤ now →
  now < triggerTime a + (Z.of_nat j + 1) * interval a →
  representable (triggerTime a) →
  representable (triggerTime a + (Z.of_nat j + 1) * interval a) →
  (run (replicate (S (S j)) (tick now) ++ cs) m).1.1 = Running ∧
  (run (replicate (S (S j)) (tick now) ++ cs) m).2
    = replicate (S j) (ticket a) ∧
  ∃ a', queued (run (replicate (S (S j)) (tick now) ++ cs) m).1.2 = [a'] ∧
        triggerTime a' = triggerTime a + (Z.of_nat j + 1) * interval a.
Proof.
  intros (Hq & Hp & Hquit) Hl Hcu Hbody Hival Hlow Hhigh Hfrom Hto.
  unfold run. by apply catch_up_cycles.
Qed.

(** X16.  Not catching up.  With [catchUp] off, the same action, however
    late, is invoked once; its trigger time becomes the clock reading of
    the pass plus the interval, that sum being a representable
    [Timepoint], and the loop waits. *)
Theorem no_catch_up_fires_once (now : Timepoint) (a : ManagedAction)
    (m : Machine) (cs : list Cycle) :
  alone a m → live a → catchUp a = false → plain_repeater (action a) →
  0 < interval a → triggerTime a ≤ now → representable (now + interval a) →
  (run (tick now :: tick now :: cs) m).1.1 = Running ∧
  (run (tick now :: tick now :: cs) m).2 = [ticket a] ∧
  ∃ a', queued (run (tick now :: tick now :: cs) m).1.2 = [a'] ∧
        triggerTime a' = now + interval a.
Proof.
  intros Halone Hl Hcu Hbody Hival Hdue Hsum. unfold run.
  assert (alone a (with_looper {| mContext := ctx m; mQuit := false |} m))
    as Halone' by (by destruct Halone as (? & ? & ?)).
  destruct (cycle_fires a now _ Halone' Hl Hbody Hdue) as (m1 & H1 & Hrun).
  rewrite Hrun. unfold reschedule in H1. rewrite Hcu in H1.
  rewrite stored_representable in H1 by done.
  destruct (cycle_waits _ now m1 cs H1 Hl ltac:(cbn; lia)
              ltac:(unfold representable in *; lia))
    as (Ho & Hf & Hq).
  destruct (runCycles (tick now :: cs) m1) as [[o m'] fired]; cbn in *.
  subst. split_and!; [done | done |]. by eexists.
Qed.

(** ** What a pass leaves alone *)

Lemma ages_trans a b c : ages a b → ages b c → ages a c.
Proof.
  intros (? & ? & ? & ? & ?) (? & ? & ? & ? & ?).
  unfold ages. split_and!; try congruence. auto.
Qed.

Lemma Forall2_ages_trans l1 l2 l3 :
  Forall2 ages l1 l2 → Forall2 ages l2 l3 → Forall2 ages l1 l3.
Proof.
  intros H12. revert l3.
  induction H12 as [|a b l l' Hab _ IH]; intros l3 H3; inv H3; constructor.
  - by eapply ages_trans.
  - auto.
Qed.

Lemma aged_evolves q0 m m' :
  evolves ages (ctx m) (ctx m') →
  Forall2 ages q0 (queued m) → Forall2 ages q0 (queued m').
Proof. intros (_ & Hq & _) H0. by eapply Forall2_ages_trans. Qed.

Lemma aged_api_stable q0 : api_stable (λ m, Forall2 ages q0 (queued m)).
Proof.
  split; intros; try done.
  - eapply aged_evolves; [| eassumption].
    apply evolves_weaken, doCancel_evolves.
  - eapply aged_evolves; [| eassumption].
    apply evolves_weaken, cancelAll_evolves.
  - eapply aged_evolves; [| eassumption].
    apply evolves_weaken, cancelAll_evolves.
Qed.

(** X17.  A pass neither adds, removes nor reorders queued entries, and
    never revives one: entry by entry the queued sequence after the pass
    has the tickets, bodies, intervals and policies it had before, and
    what was cancelled is cancelled still. *)
Theorem pass_keeps_queue (now : Timepoint) (m : Machine) :
  Forall2 ages (queued m) (queued (runQueued now m).1.2) ∧
  ticket <$> queued (runQueued now m).1.2 = ticket <$> queued m.
Proof.
  assert (Forall2 ages (queued m) (queued (runQueued now m).1.2)) as H.
  { apply (runQueuedFrom_inv (λ _ m', Forall2 ages (queued m) (queued m')))
      with (fired := []).
    - intros _ m' i a now' Hm' _ _.
      pose proof (runBody_stable _ (aged_api_stable (queued m))
                    (action a (world m')) m' Hm') as H1.
      destruct (runBody (action a (world m')) m') as [[repeat|] m1]; cbn in *;
        [| done].
      eapply aged_evolves; [| exact H1]. apply updateQueued_evolves.
    - eapply Forall2_impl; [apply Forall2_marks_refl | apply marks_ages]. }
  split; [done | by apply Forall2_ages_tickets].
Qed.

End Loop.

Arguments Ret {World}.
Arguments Throw {World}.
Arguments CallSchedule {World}.
Arguments CallCancel {World}.
Arguments CallCancelAll {World}.
Arguments CallQuit {World}.
Arguments Build_ManagedAction {World}.
Arguments Build_LoopContext {World}.
Arguments Build_Looper {World}.
Arguments Build_Machine {World}.
Arguments Build_Request {World}.
Arguments Build_Cycle {World}.
Arguments OpSchedule {World}.
Arguments OpCancel {World}.
Arguments OpCancelAll {World}.
Arguments OpQuit {World}.
Arguments OpQueuePending {World}.
Arguments OpRunQueued {World}.
Arguments OpResume {World}.
Arguments OpRun {World}.
Arguments OpResumeRun {World}.

(** ** The theorems at work

    A looper over a world without state, [Timepoint::max()] being 1000. *)

(** An action is scheduled and queued, a second one is scheduled; the
    first is cancelled and two passes follow. *)
Lemma cancel_true_never_invoked_witness :
  let m := (exec unit 1000
              [OpSchedule (Build_Request (λ w, Ret false w) 10 0 false);
               OpQueuePending;
               OpSchedule (Build_Request (λ w, Ret true w) 20 5 true)]
              (Machine_new unit tt)).1 in
  (doCancel unit 101 m).1 = true ∧
  101 ∉ (exec unit 1000 [OpQueuePending; OpRunQueued 50; OpRunQueued 60]
           (doCancel unit 101 m).2).2.
Proof.
  intros m. split; [reflexivity |].
  apply (cancel_true_never_invoked unit 1000 101 m).
  - split.
    + compute_done.
    + apply Forall_forall. compute_done.
    + repeat constructor.
  - reflexivity.
Defined.

(** A cancelled and a live entry are queued and one entry is pending. *)
Lemma queuePending_reconciles_witness :
  let c := Build_LoopContext 103
             [Build_ManagedAction 101 (λ w : unit, Ret false w) 0 false 10 true;
              Build_ManagedAction 102 (λ w : unit, Ret true w) 5 true 30 false]
             [Build_ManagedAction 103 (λ w : unit, Ret false w) 0 false 50 false] in
  ticket unit <$> mQueuedActions unit (queuePending unit 1000 c).2 = [103; 102] ∧
  (queuePending unit 1000 c).1 = 30 ∧
  queuePending unit 1000 (queuePending unit 1000 c).2 = queuePending unit 1000 c.
Proof.
  intros c. split; [reflexivity |]. split; [reflexivity |].
  assert (Forall (live unit) (mPendingActions unit c)) as H1
    by (repeat constructor).
  assert (Forall (λ a, triggerTime unit a ≤ 1000) (entries unit c)) as H2
    by (repeat constructor; cbn; lia).
  exact (proj1 (proj2 (proj2 (proj2 (proj2 (proj2
           (queuePending_reconciles unit 1000 c H1 H2))))))).
Defined.

(** A repeating action with [catchUp], due since 350 ticks; and one
    without, whose interval carries the sum beyond [Timepoint::max()]. *)
Lemma runQueued_reschedules_witness :
  let a := Build_ManagedAction 101 (λ w : unit, Ret true w) 100 true 0 false in
  let m := Build_Machine (Build_Looper (Build_LoopContext 101 [a] []) false)
             tt [101] true in
  let b := Build_ManagedAction 101 (λ w : unit, Ret true w) 1000 false 0 false in
  let m' := Build_Machine (Build_Looper (Build_LoopContext 101 [b] []) false)
              tt [101] true in
  (∃ a', queued unit (updateQueued unit 0 (reschedule unit 1000 350 true) m) !! 0%nat
           = Some a' ∧
         triggerTime unit a' = 100) ∧
  (∃ b', queued unit (updateQueued unit 0 (reschedule unit 1000 10 true) m') !! 0%nat
           = Some b' ∧
         triggerTime unit b' = -992).
Proof.
  intros a m b m'. split.
  - destruct (runQueued_reschedules unit 1000 0 0 350 m m a true)
      as [_ (a' & Ha' & _ & Hcatch & _)].
    + reflexivity.
    + reflexivity.
    + cbn. lia.
    + reflexivity.
    + exists a'. split; [exact Ha' |].
      apply (proj2 (Hcatch eq_refl eq_refl)).
      unfold representable, Timepoint_min. cbn. lia.
  - destruct (runQueued_reschedules unit 1000 0 0 10 m' m' b true)
      as [_ (b' & Hb' & _ & _ & Hreset & _)].
    + reflexivity.
    + reflexivity.
    + cbn. lia.
    + reflexivity.
    + exists b'. split; [exact Hb' |].
      exact (proj1 (Hreset eq_refl eq_refl)).
Defined.

(** An action that does not repeat, queued and due at 10, and a
    repeating one, pending.  Passes at 5 and 7 find the first not due,
    the pass at 50 invokes it, and two more passes follow. *)
Lemma once_action_fires_once_witness :
  let m := (exec unit 1000
              [OpSchedule (Build_Request (λ w, Ret false w) 10 0 false);
               OpQueuePending;
               OpSchedule (Build_Request (λ w, Ret true w) 20 5 true)]
              (Machine_new unit tt)).1 in
  times 101
    (exec unit 1000
       ([OpRunQueued 5; OpQueuePending; OpRunQueued 7] ++
        [OpQueuePending; OpRunQueued 50] ++
        [OpRunQueued 60; OpQueuePending; OpRunQueued 70]) m).2 = 1%nat.
Proof.
  intros m.
  assert (wf unit (ctx unit m)) as Hwf.
  { split.
    - compute_done.
    - apply Forall_forall. compute_done.
    - repeat constructor. }
  assert (once unit 101 (ctx unit m)) as Honce.
  { split; [cbn; lia |].
    intros a Ha Hta. apply elem_of_cons in Ha as [-> | Ha].
    - intros w m'. reflexivity.
    - apply list_elem_of_singleton in Ha. subst a. cbn in Hta. lia. }
  refine (proj1 (proj2 (proj2 (proj2 (proj2 (proj2
            (once_action_fires_once unit 1000 101 m Hwf Honce))))
            (Build_ManagedAction 101 (λ w : unit, Ret false w) 0 false 10 false)
            [OpRunQueued 5; OpQueuePending; OpRunQueued 7] _ _ _ _ _ _))
          50 [OpRunQueued 60; OpQueuePending; OpRunQueued 70] _).
  - left.
  - reflexivity.
  - reflexivity.
  - reflexivity.
  - intros b Hb Hne w. apply elem_of_cons in Hb as [-> | Hb].
    + cbn in Hne. lia.
    + apply list_elem_of_singleton in Hb. subst b. constructor.
  - repeat constructor.
  - cbn. lia.
Defined.

(** Two queued actions, the first of which is not due yet. *)
Lemma pass_fires_in_queue_order_witness :
  let a := Build_ManagedAction 101 (λ w : unit, Ret false w) 0 false 500 false in
  let b := Build_ManagedAction 102 (λ w : unit, Ret false w) 0 false 50 false in
  let m := Build_Machine (Build_Looper (Build_LoopContext 102 [a; b] []) false)
             tt [101; 102] true in
  runQueuedFrom unit 1000 2 0 200 m = runQueuedFrom unit 1000 1 1 200 m ∧
  (runQueued unit 1000 200 m).2 = [102].
Proof.
  intros a b m. split; [| reflexivity].
  refine (proj1 (proj2 (pass_fires_in_queue_order unit 1000 200 m)) 1%nat 0%nat a _ _).
  - reflexivity.
  - cbn. lia.
Defined.

(** One pending action; its ticket and an unknown one. *)
Lemma cancel_true_iff_live_witness :
  let l := (scheduleAt unit (λ w, Ret false w) 10 0 false (Looper_new unit)).2 in
  ((cancel unit 101 l).1 = true ↔
     ∃ a, a ∈ entries unit (mContext unit l) ∧ ticket unit a = 101 ∧ live unit a) ∧
  (cancel unit 102 l).1 = false.
Proof.
  intros l. split; [| reflexivity].
  refine (proj1 (cancel_true_iff_live unit 101 l _)).
  split.
  - compute_done.
  - apply Forall_forall. compute_done.
  - repeat constructor.
Defined.

(** *** Further properties at work *)

(** Two queued actions, both due. *)
Lemma pass_invokes_each_once_witness :
  let m := (exec unit 1000
              [OpSchedule (Build_Request (λ w, Ret true w) 10 5 true);
               OpSchedule (Build_Request (λ w, Ret false w) 20 0 false);
               OpQueuePending]
              (Machine_new unit tt)).1 in
  (runQueued unit 1000 50 m).2 = [101; 102] ∧ NoDup (runQueued unit 1000 50 m).2.
Proof.
  intros m. split; [reflexivity |].
  apply (pass_invokes_each_once unit 1000 50 m).
  split.
  - compute_done.
  - apply Forall_forall. compute_done.
  - constructor.
Defined.

(** A cancelled entry and one that is due later. *)
Lemma pass_idle_witness :
  let a := Build_ManagedAction 101 (λ w : unit, Ret false w) 0 false 10 true in
  let b := Build_ManagedAction 102 (λ w : unit, Ret true w) 5 true 500 false in
  let m := Build_Machine (Build_Looper (Build_LoopContext 102 [a; b] []) false)
             tt [101; 102] true in
  runQueued unit 1000 200 m = (Completed, m, []).
Proof.
  intros a b m. apply (pass_idle unit 1000 200 m).
  intros x Hx. apply elem_of_cons in Hx as [-> | Hx]; [by left |].
  apply list_elem_of_singleton in Hx as ->. right. cbn. lia.
Defined.

(** A body that throws, followed by another due entry. *)
Lemma body_exception_unwinds_witness :
  let a := Build_ManagedAction 101 (λ w : unit, Throw w) 5 true 10 false in
  let b := Build_ManagedAction 102 (λ w : unit, Ret true w) 5 true 20 false in
  let m := Build_Machine (Build_Looper (Build_LoopContext 102 [a; b] []) false)
             tt [101; 102] true in
  runQueuedFrom unit 1000 2 0 200 m = (Unwinding, m, [101]).
Proof.
  intros a b m.
  refine (proj1 (body_exception_unwinds unit 1000 1 0 200 m m a _ _ _ _)).
  - reflexivity.
  - reflexivity.
  - cbn. lia.
  - reflexivity.
Defined.

(** An unknown ticket. *)
Lemma cancel_false_noop_witness :
  let l := (scheduleAt unit (λ w, Ret false w) 10 0 false (Looper_new unit)).2 in
  (cancel unit 7 l).2 = l.
Proof. intros l. apply (cancel_false_noop unit 7 l). reflexivity. Defined.

(** One pending action, cancelled twice. *)
Lemma cancel_twice_witness :
  let l := (scheduleAt unit (λ w, Ret false w) 10 0 false (Looper_new unit)).2 in
  cancel unit 101 (cancel unit 101 l).2 = (false, (cancel unit 101 l).2).
Proof.
  intros l. apply (cancel_twice unit 101 l); [| reflexivity].
  split.
  - compute_done.
  - apply Forall_forall. compute_done.
  - repeat constructor.
Defined.

(** A looper that holds one action already. *)
Lemma schedule_cancel_roundtrip_witness :
  let l := (scheduleAt unit (λ w, Ret false w) 10 0 false (Looper_new unit)).2 in
  (cancel unit 102 (scheduleAt unit (λ w, Ret true w) 20 5 true l).2).1 = true.
Proof.
  intros l.
  assert (wf unit (mContext unit l)) as Hwf.
  { split.
    - compute_done.
    - apply Forall_forall. compute_done.
    - repeat constructor. }
  exact (f_equal fst
           (schedule_cancel_roundtrip unit (λ w, Ret true w) 20 5 true l Hwf)).
Defined.

(** An action whose body calls [quit()], and one scheduled meanwhile. *)
Lemma run_stopped_clean_witness :
  let m := (exec unit 1000
              [OpSchedule (Build_Request (λ w, CallQuit (Ret false w)) 10 0 false)]
              (Machine_new unit tt)).1 in
  let cs := [Build_Cycle [] [(5, [Build_Request (λ w, Ret true w) 50 5 true]);
                             (20, [])] 20] in
  (run unit 1000 cs m).2 = [101] ∧
  pending unit (run unit 1000 cs m).1.2 = [].
Proof.
  intros m cs. split; [reflexivity |].
  refine (proj1 (proj2 (run_stopped_clean unit 1000 cs m _ _))).
  - split.
    + compute_done.
    + apply Forall_forall. compute_done.
    + repeat constructor.
  - reflexivity.
Defined.

(** Two queued actions and a pending one; the body of the first has
    called [quit()] and schedules an action before it returns. *)
Lemma quit_then_flush_empty_witness :
  let a := Build_ManagedAction 101 (λ w : unit, Ret false w) 0 false 10 false in
  let b := Build_ManagedAction 102 (λ w : unit, Ret true w) 5 true 20 false in
  let c := Build_ManagedAction 103 (λ w : unit, Ret false w) 0 false 30 false in
  let m := Build_Machine (Build_Looper (Build_LoopContext 103 [a; b] [c]) false)
             tt [101; 102; 103] true in
  let k := CallSchedule (λ w : unit, Ret false w) 50 0 false (λ _, Ret false tt) in
  ticket unit <$>
    entries unit (ctx unit (resumeRun unit 1000 k 1 0 20 [] (doQuit unit m)).1.2)
    = [104] ∧
  ∀ x,
    x ∈ entries unit (ctx unit (resumeRun unit 1000 k 1 0 20 [] (doQuit unit m)).1.2) →
    103 < ticket unit x.
Proof.
  intros a b c m k. split; [reflexivity |].
  exact (proj1 (proj1 (quit_then_flush_empty unit 1000 m) k 1%nat 0%nat 20 []
                  eq_refl)).
Defined.

(** One pending action, due at the second reading of the clock. *)
Lemma wait_ends_when_due_witness :
  let m := (exec unit 1000
              [OpSchedule (Build_Request (λ w, Ret false w) 10 0 false)]
              (Machine_new unit tt)).1 in
  pending unit (waitLoop unit 1000 [(5, []); (12, [])] m).2 = [].
Proof.
  intros m.
  refine (proj1 (wait_ends_when_due unit 1000 [(5, []); (12, [])] m _)).
  reflexivity.
Defined.

(** A new looper and two cycles. *)
Lemma empty_looper_waits_witness :
  let cs := [Build_Cycle (World := unit) [] [(5, []); (7, [])] 9;
             Build_Cycle [] [(20, [])] 20] in
  (run unit 1000 cs (Machine_new unit tt)).1.1 = Running.
Proof.
  intros cs.
  refine (proj1 (empty_looper_waits unit 1000 cs (Machine_new unit tt) _ _)).
  - reflexivity.
  - repeat constructor; cbn; lia.
Defined.

(** Trigger time 0, interval 100, the loop wakes at 350. *)
Lemma catch_up_fires_missed_witness :
  let a := Build_ManagedAction 101 (λ w : unit, Ret true w) 100 true 0 false in
  let m := Build_Machine (Build_Looper (Build_LoopContext 101 [a] []) false)
             tt [101] true in
  (run unit 1000 (replicate 5 (tick unit 350)) m).2 = [101; 101; 101; 101].
Proof.
  intros a m.
  pose proof (catch_up_fires_missed unit 1000 350 3 a m []) as H.
  rewrite app_nil_r in H.
  refine (proj1 (proj2 (H _ _ _ _ _ _ _ _ _))).
  - by split_and!.
  - reflexivity.
  - reflexivity.
  - intros w. by exists w.
  - cbn. lia.
  - cbn. lia.
  - cbn. lia.
  - unfold representable, Timepoint_min. cbn. lia.
  - unfold representable, Timepoint_min. cbn. lia.
Defined.

(** The same action without [catchUp]. *)
Lemma no_catch_up_fires_once_witness :
  let a := Build_ManagedAction 101 (λ w : unit, Ret true w) 100 false 0 false in
  let m := Build_Machine (Build_Looper (Build_LoopContext 101 [a] []) false)
             tt [101] true in
  (run unit 1000 (replicate 5 (tick unit 350)) m).2 = [101].
Proof.
  intros a m.
  refine (proj1 (proj2 (no_catch_up_fires_once unit 1000 350 a m
                          (replicate 3 (tick unit 350)) _ _ _ _ _ _ _))).
  - by split_and!.
  - reflexivity.
  - reflexivity.
  - intros w. by exists w.
  - cbn. lia.
  - cbn. lia.
  - unfold representable, Timepoint_min. cbn. lia.
Defined.

(** ** Where the code departs from its description *)

(** C5.  Two loopers of one process return the same ticket. *)
Lemma tickets_repeat_across_loopers :
  let looperA := Looper_new unit in
  let looperB := Looper_new unit in
  let ticketA := (scheduleAt unit (λ w, Ret false w) 10 0 false looperA).1 in
  let ticketB := (scheduleAt unit (λ w, Ret true w) 20 5 true looperB).1 in
  ticketA = 101 ∧ ticketB = 101 ∧ ¬ ticketA ≠ ticketB.
Proof. cbn. split_and!; [done | done |]. intros H. by apply H. Qed.

(** C6.  Action 101 is put into the pending sequence and queued; action
    102 is put into the pending sequence afterwards.  Both are due in the
    pass that follows the next reconciliation, and the body of 102 is
    invoked first. *)
Lemma later_action_fires_first :
  let history :=
    [OpSchedule (Build_Request (λ w, Ret false w) 100 0 false);
     OpQueuePending;
     OpSchedule (Build_Request (λ w, Ret false w) 50 0 false);
     OpQueuePending] in
  let m := (exec unit 1000 history (Machine_new unit tt)).1 in
  issued unit m = [101; 102] ∧
  (runQueued unit 1000 200 m).2 = [102; 101] ∧
  ¬ fires_before 101 102 (runQueued unit 1000 200 m).2.
Proof.
  cbn zeta. split_and!; [reflexivity | reflexivity |].
  change (¬ fires_before 101 102 [102; 101]).
  intros (l1 & l2 & l3 & H).
  destruct l1 as [|x [|y l1]]; cbn in H.
  - discriminate H.
  - injection H as _ H. destruct l2; discriminate H.
  - injection H as _ _ H. destruct l1; discriminate H.
Qed.

(** ** The main looper *)

(** C9 (as the code has it).  [mainLooper()] returns the looper last
    given to [setMainLooper]; its result is defined exactly when the
    pointer has been set. *)
Theorem mainLooper_defined_iff_set (g : Globals) :
  (∀ l, mainLooper (setMainLooper l g) = Object l) ∧
  (mainLooper g ≠ UndefinedBehaviour ↔ sMainLooper g ≠ None).
Proof.
  split; [done |]. unfold mainLooper.
  destruct (sMainLooper g); split; congruence.
Qed.

(** Called before any [setMainLooper], [mainLooper()] dereferences the
    null pointer: neither a defined failure nor a sentinel. *)
Lemma mainLooper_unset_undefined :
  mainLooper globals_at_startup = UndefinedBehaviour.
Proof. reflexivity. Qed.
